(** * Highlight normalizer: assets/js/highlight-init.js

    A shallow embedding of the client-side pass that prepares statically
    rendered code blocks for highlight.js, together with the properties the
    specification states about it.

    The script manipulates a browser DOM through element handles.  The
    embedding keeps that shape: elements carry a unique identifier (the
    handle), the page is a tree of nodes, and subtrees removed from the page
    by an assignment to [textContent] stay reachable through their handles in
    a list of detached trees, exactly as in the browser.

    highlight.js is not part of the repository.  A call of
    [hljs.highlightElement] is recorded, with the element as it is passed;
    what the engine then does to that element is outside this model. *)

From Stdlib Require Import List String Bool Arith Lia Permutation.
Import ListNotations.
Open Scope string_scope.
Open Scope list_scope.

(** ** Completions

    A JavaScript statement either completes normally or throws.  The only
    throw the script can reach by itself is the [TypeError] of a member
    access on [null] or [undefined]. *)

Inductive exn : Type :=
| TypeError (message : string).

Inductive completion (A : Type) : Type :=
| Normal (value : A)
| Throw (e : exn).

Arguments Normal {A} value.
Arguments Throw {A} e.

Definition bind {A B : Type} (c : completion A) (k : A -> completion B)
  : completion B :=
  match c with
  | Normal a => k a
  | Throw e => Throw e
  end.

Notation "x <- c ;; k" := (bind c (fun x => k))
  (at level 61, c at next level, right associativity).

(** ** DOM nodes *)

#[local] Set Warnings "-register-all".

Inductive node : Type :=
| Text (data : string)
| Comment (data : string)
| Element (uid : nat) (localName : string) (classList : list string)
          (childNodes : list node).

Definition uid_of (n : node) : option nat :=
  match n with
  | Element i _ _ _ => Some i
  | _ => None
  end.

Definition localName_of (n : node) : string :=
  match n with
  | Element _ t _ _ => t
  | _ => ""
  end.

Definition classList_of (n : node) : list string :=
  match n with
  | Element _ _ cl _ => cl
  | _ => []
  end.

Definition childNodes_of (n : node) : list node :=
  match n with
  | Element _ _ _ ch => ch
  | _ => []
  end.

(** Handles of the elements of a tree, in tree order. *)
Fixpoint elements (n : node) : list nat :=
  match n with
  | Element i _ _ ch => i :: flat_map elements ch
  | _ => []
  end.

Definition joined (l : list string) : string :=
  fold_right String.append "" l.

(** The [textContent] getter of an element: the data of its [Text]
    descendants, concatenated in tree order; comments do not contribute. *)
Fixpoint textContent (n : node) : string :=
  match n with
  | Text d => d
  | Comment _ => ""
  | Element _ _ _ ch => joined (map textContent ch)
  end.

(** [n] is, or contains, an element with the given local name. *)
Fixpoint has_element (name : string) (n : node) : bool :=
  match n with
  | Element _ t _ ch => String.eqb t name || existsb (has_element name) ch
  | _ => false
  end.

(** [el.querySelector(name)] for a type selector, as a truth value: some
    descendant of [el] (not [el] itself) is an element of that name. *)
Definition querySelector (name : string) (el : node) : bool :=
  existsb (has_element name) (childNodes_of el).

(** [n] is an element (of any name). *)
Definition is_element (n : node) : bool :=
  match n with
  | Element _ _ _ _ => true
  | _ => false
  end.

(** [el] contains nested markup: some node below it is an element, which
    is the case exactly when one of its children is. *)
Definition has_markup (el : node) : bool :=
  existsb is_element (childNodes_of el).

(** Inclusive ancestors of the element [i] inside the tree [n], nearest
    first: [i] itself, its parent, and so on up to the root.  Empty when [i]
    is not an element of [n]. *)
Fixpoint inclusiveAncestors (i : nat) (n : node) : list node :=
  match n with
  | Element j _ _ ch =>
      if Nat.eqb j i then [n]
      else match flat_map (inclusiveAncestors i) ch with
           | [] => []
           | up => up ++ [n]
           end
  | _ => []
  end.

(** [document.querySelectorAll("pre code")]: every [code] element that has a
    [pre] element among its ancestors, in document order.  Local names are
    those the HTML parser gives, in lower case. *)
Fixpoint select_pre_code (inPre : bool) (n : node) : list nat :=
  match n with
  | Element i t _ ch =>
      (if inPre && String.eqb t "code" then [i] else [])
        ++ flat_map (select_pre_code (inPre || String.eqb t "pre")) ch
  | _ => []
  end.

(** Apply [f] to the element [i] of the tree. *)
Fixpoint update (i : nat) (f : node -> node) (n : node) : node :=
  match n with
  | Element j t cl ch =>
      if Nat.eqb j i then f n else Element j t cl (map (update i f) ch)
  | _ => n
  end.

(** The [textContent] setter replaces all children by one [Text] node, or by
    nothing when the string is empty. *)
Definition flat (s : string) : list node :=
  if String.eqb s "" then [] else [Text s].

Definition replaceAll (s : string) (n : node) : node :=
  match n with
  | Element j t cl _ => Element j t cl (flat s)
  | _ => n
  end.

Definition contains (cl : list string) (token : string) : bool :=
  existsb (String.eqb token) cl.

(** [DOMTokenList.add]: the token is appended unless already in the list. *)
Definition add (token : string) (n : node) : node :=
  match n with
  | Element j t cl ch =>
      Element j t (if contains cl token then cl else cl ++ [token]) ch
  | _ => n
  end.

(** The same notions for a list of trees. *)
Definition elems (F : list node) : list nat := flat_map elements F.

Definition chain (i : nat) (F : list node) : list node :=
  flat_map (inclusiveAncestors i) F.

(** ** The page and the engine *)

(** What [window.hljs] holds when the library has loaded.  The engine is
    external to the repository: the model records each call of
    [highlightElement] with the element as it is when passed, and leaves the
    engine's own rewriting of that element out. *)
Inductive engine : Type :=
| HighlightJs.

Record window : Type := { hljs : option engine }.

Record world : Type := {
  document : node;            (* the root element of the page *)
  detached : list node;       (* subtrees removed from the page, still referenced *)
  highlighted : list node     (* arguments of the calls of highlightElement, oldest first *)
}.

Definition forest (w : world) : list node := document w :: detached w.

Definition all_elements (w : world) : list nat := elems (forest w).

(** Element handles are object identities: no two elements share one. *)
Definition wf (w : world) : Prop := NoDup (all_elements w).

(** A decision procedure for [wf], for concrete pages. *)
Fixpoint nodupb (l : list nat) : bool :=
  match l with
  | [] => true
  | x :: r => negb (existsb (Nat.eqb x) r) && nodupb r
  end.

Definition page (doc : node) : world :=
  {| document := doc; detached := []; highlighted := [] |}.

Definition ancestry (w : world) (i : nat) : list node := chain i (forest w).

(** The element behind a handle. *)
Definition deref (w : world) (i : nat) : option node := hd_error (ancestry w i).

(** [el.parentElement] *)
Definition parentElement (w : world) (el : nat) : option nat :=
  match ancestry w el with
  | _ :: p :: _ => uid_of p
  | _ => None
  end.

(** The class tokens of the element behind a handle. *)
Definition classes (w : world) (i : nat) : list string :=
  match deref w i with
  | Some n => classList_of n
  | None => []
  end.

(** The local name of the element behind a handle. *)
Definition localName (w : world) (j : nat) : string :=
  match deref w j with
  | Some n => localName_of n
  | None => ""
  end.

(** [el.classList] on a possibly null receiver. *)
Definition classList (w : world) (el : option nat) : completion (list string) :=
  match el with
  | None => Throw (TypeError "Cannot read properties of null (reading 'classList')")
  | Some i => Normal (classes w i)
  end.

Definition has_class (cls : string) (n : node) : bool :=
  contains (classList_of n) cls.

(** [el.closest("." + cls)] on a possibly null receiver: the nearest
    inclusive ancestor of [el] carrying the class. *)
Definition closest (w : world) (el : option nat) (cls : string)
  : completion (option nat) :=
  match el with
  | None => Throw (TypeError "Cannot read properties of null (reading 'closest')")
  | Some i =>
      Normal (match find (has_class cls) (ancestry w i) with
              | Some a => uid_of a
              | None => None
              end)
  end.

(** [code.querySelector("span")] *)
Definition querySelector_span (w : world) (code : nat) : bool :=
  match deref w code with
  | Some n => querySelector "span" n
  | None => false
  end.

(** [code.textContent] *)
Definition get_textContent (w : world) (code : nat) : string :=
  match deref w code with
  | Some n => textContent n
  | None => ""
  end.

(** [code.textContent = s]: the former children leave the tree they were in. *)
Definition set_textContent (code : nat) (s : string) (w : world) : world :=
  {| document := update code (replaceAll s) (document w);
     detached := map (update code (replaceAll s)) (detached w)
                   ++ match deref w code with
                      | Some n => childNodes_of n
                      | None => []
                      end;
     highlighted := highlighted w |}.

(** [code.classList.contains(token)] *)
Definition classList_contains (w : world) (code : nat) (token : string) : bool :=
  contains (classes w code) token.

(** [code.classList.add(token)] *)
Definition classList_add (code : nat) (token : string) (w : world) : world :=
  {| document := update code (add token) (document w);
     detached := map (update code (add token)) (detached w);
     highlighted := highlighted w |}.

(** The world after one more call of the engine on [code]: the element is
    appended to the log as it is at that moment. *)
Definition logged (code : nat) (w : world) : world :=
  {| document := document w;
     detached := detached w;
     highlighted := highlighted w
                      ++ match deref w code with
                         | Some n => [n]
                         | None => []
                         end |}.

(** [window.hljs.highlightElement(code)] *)
Definition highlightElement (win : window) (code : nat) (w : world)
  : completion world :=
  match hljs win with
  | None =>
      Throw (TypeError "Cannot read properties of undefined (reading 'highlightElement')")
  | Some _ => Normal (logged code w)
  end.

(** ** The script *)

(** [a || b] on handles. *)
Definition orElse (a b : option nat) : option nat :=
  match a with
  | Some _ => a
  | None => b
  end.

(** Lines 9-11: strip Rouge-generated spans. *)
Definition stripper (code : nat) (w : world) : world :=
  if querySelector_span w code
  then set_textContent code (get_textContent w code) w
  else w.

(** Lines 15-19: the language class offered by the wrapper or the [pre]. *)
Definition langClass_of (w : world) (pre : option nat)
  : completion (option string) :=
  wrapper <- closest w pre "highlighter-rouge" ;;
  let langSource := orElse wrapper pre in
  tokens <- classList w langSource ;;
  Normal (find (String.prefix "language-") tokens).

(** Lines 15-22: propagate the language class to the [code] element. *)
Definition resolver (code : nat) (pre : option nat) (w : world)
  : completion world :=
  langClass <- langClass_of w pre ;;
  match langClass with
  | Some token =>
      if negb (classList_contains w code token)
      then Normal (classList_add code token w)
      else Normal w
  | None => Normal w
  end.

(** Lines 5-24: the callback of [forEach]. *)
Definition callback (win : window) (code : nat) (w : world) : completion world :=
  let pre := parentElement w code in
  match pre with
  | None => Normal w
  | Some _ =>
      let w := stripper code w in
      w <- resolver code pre w ;;
      highlightElement win code w
  end.

(** [NodeList.forEach]: the list of handles is fixed when the loop starts. *)
Fixpoint forEach (f : nat -> world -> completion world) (l : list nat) (w : world)
  : completion world :=
  match l with
  | [] => Normal w
  | x :: rest => w' <- f x w ;; forEach f rest w'
  end.

Definition querySelectorAll_pre_code (w : world) : list nat :=
  select_pre_code false (document w).

(** Lines 1-26. *)
Definition highlight_init (win : window) (w : world) : completion world :=
  match hljs win with
  | None => Normal w
  | Some _ => forEach (callback win) (querySelectorAll_pre_code w) w
  end.

(** ** Notions used in the statements

    The class source and the language class, computed from the chain of
    inclusive ancestors of the [pre] element. *)

Definition source_of (up : list node) : option node :=
  match find (has_class "highlighter-rouge") up with
  | Some a => Some a
  | None => hd_error up
  end.

Definition langClass_from (up : list node) : option string :=
  match source_of up with
  | Some a => find (String.prefix "language-") (classList_of a)
  | None => None
  end.

(** The class source in the words of the specification: the nearest
    inclusive ancestor of the container that carries the marker class, or
    the container itself when there is none. *)
Inductive class_source (w : world) (container : nat) : nat -> Prop :=
| source_wrapper near a far k :
    ancestry w container = near ++ a :: far ->
    (forall b, In b near -> has_class "highlighter-rouge" b = false) ->
    has_class "highlighter-rouge" a = true ->
    uid_of a = Some k ->
    class_source w container k
| source_container :
    (forall b, In b (ancestry w container) ->
               has_class "highlighter-rouge" b = false) ->
    class_source w container container.

(** The first token of a class list that starts with [language-], if any. *)
Inductive first_language_token : list string -> option string -> Prop :=
| first_token before token after :
    (forall u, In u before -> String.prefix "language-" u = false) ->
    String.prefix "language-" token = true ->
    first_language_token (before ++ token :: after) (Some token)
| no_token cl :
    (forall u, In u cl -> String.prefix "language-" u = false) ->
    first_language_token cl None.

(** The world after lines 15-22, for a [pre] that is not null. *)
Definition resolved (code pre : nat) (w : world) : world :=
  match langClass_from (ancestry w pre) with
  | Some token =>
      if contains (classes w code) token then w else classList_add code token w
  | None => w
  end.

(** One turn of the loop, when the engine is there and nothing throws. *)
Definition step (code : nat) (w : world) : world :=
  match parentElement w code with
  | None => w
  | Some pre => logged code (resolved code pre (stripper code w))
  end.

Definition run (l : list nat) (w : world) : world :=
  fold_left (fun w code => step code w) l w.

(** Nothing is left to do for a code element: it has a parent, no span
    below it, and the language class of its source, if any. *)
Definition settled (w : world) (code : nat) : Prop :=
  querySelector_span w code = false
  /\ exists pre,
       parentElement w code = Some pre
       /\ match langClass_from (ancestry w pre) with
          | Some token => In token (classes w code)
          | None => True
          end.

(** The state of the loop after the elements [P] of the enumeration [L] of
    the world [w0]. *)
Definition loop_invariant (w0 : world) (L P : list nat) (w : world) : Prop :=
  wf w
  /\ (forall j, In j (elements (document w)) ->
                In j (elements (document w0))
                /\ map uid_of (inclusiveAncestors j (document w))
                   = map uid_of (inclusiveAncestors j (document w0)))
  /\ (forall c, In c P -> In c (elements (document w)) -> settled w c)
  /\ (forall x, In x (querySelectorAll_pre_code w) -> In x L).

(** [a] comes before [c] in the list. *)
Definition precedes (a c : nat) (l : list nat) : Prop :=
  exists l1 l2, l = l1 ++ a :: l2 /\ In c l2.

(** [l] is [l'] with some entries left out. *)
Inductive subsequence {A : Type} : list A -> list A -> Prop :=
| subsequence_nil : subsequence [] []
| subsequence_skip x l l' : subsequence l l' -> subsequence l (x :: l')
| subsequence_keep x l l' : subsequence l l' -> subsequence (x :: l) (x :: l').

(** [document.querySelectorAll("pre code")] in the words of the selector: an
    element matches when it is a [code] element and one of its strict
    ancestors is a [pre] element ([inPre] stands for a [pre] above the
    chain). *)
Definition matches_chain (inPre : bool) (up : list node) : bool :=
  match up with
  | x :: above =>
      String.eqb (localName_of x) "code"
      && (inPre || existsb (fun a => String.eqb (localName_of a) "pre") above)
  | [] => false
  end.

Definition matches_pre_code (w : world) (c : nat) : bool :=
  matches_chain false (ancestry w c).

(** The local name behind an optional handle. *)
Definition name_of_handle (w : world) (u : option nat) : string :=
  match u with
  | Some k => localName w k
  | None => ""
  end.

(** ** Sample pages *)


(** The window after highlight.js has loaded, and the window without it. *)
Definition loaded : window := {| hljs := Some HighlightJs |}.
Definition missing : window := {| hljs := None |}.

(** <div class="language-go highlighter-rouge"><pre class="highlight">
      <code><span class="k">func</span> <span class="n">f</span></code></pre></div> *)
Definition rouge_block : node :=
  Element 1 "div" ["language-go"; "highlighter-rouge"]
    [Element 2 "pre" ["highlight"]
       [Element 3 "code" []
          [Element 4 "span" ["k"] [Text "func"]; Text " ";
           Element 5 "span" ["n"] [Text "f"]]]].

(** <pre><code>a <em>b</em></code></pre> : markup, but no span. *)
Definition emphasis_block : node :=
  Element 1 "pre" []
    [Element 2 "code" [] [Text "a "; Element 3 "em" [] [Text "b"]]].

(** <pre><code>text <span>a</span><code>b</code></code></pre> : a code
    element directly inside a code element that holds a span. *)
Definition nested_block : node :=
  Element 1 "pre" []
    [Element 2 "code" []
       [Text "text "; Element 3 "span" [] [Text "a"];
        Element 4 "code" [] [Text "b"]]].

(** The world in which the loop reaches the inner code element of
    [nested_block]: the outer one has been flattened and logged. *)
Definition nested_after_outer : world :=
  {| document := Element 1 "pre" [] [Element 2 "code" [] [Text "text ab"]];
     detached := [Text "text "; Element 3 "span" [] [Text "a"];
                  Element 4 "code" [] [Text "b"]];
     highlighted := [Element 2 "code" [] [Text "text ab"]] |}.

(** The list of posts of the home page: spans, but no code block. *)
Definition post_list : node :=
  Element 1 "ul" ["post-list"]
    [Element 2 "li" []
       [Element 3 "span" ["date"] [Text "Jan 16, 2026"];
        Element 4 "a" [] [Text "Virtual provider"]]].

(** A page with an inline code element next to a Rouge block. *)
Definition article : node :=
  Element 10 "article" []
    [Element 11 "p" [] [Text "Call "; Element 12 "code" [] [Text "f"]];
     rouge_block].

(** * Properties *)

(** ** Trees and lists of trees *)

(** Induction over the tree, with the hypothesis for every child. *)
Lemma node_rose_ind (P : node -> Prop) :
  (forall d, P (Text d)) ->
  (forall d, P (Comment d)) ->
  (forall i t cl ch, Forall P ch -> P (Element i t cl ch)) ->
  forall n, P n.
Proof.
  intros HT HC HE.
  fix IH 1.
  intros [d | d | i t cl ch].
  - apply HT.
  - apply HC.
  - apply HE.
    induction ch as [| c ch IHch]; constructor.
    + apply IH.
    + exact IHch.
Qed.

(** Induction over a list of trees: the children of the first tree and the
    remaining trees are both smaller. *)
Lemma forest_ind (P : list node -> Prop) :
  P [] ->
  (forall d F, P F -> P (Text d :: F)) ->
  (forall d F, P F -> P (Comment d :: F)) ->
  (forall i t cl ch F, P ch -> P F -> P (Element i t cl ch :: F)) ->
  forall F, P F.
Proof.
  intros Hnil HT HC HE.
  assert (Hnode : forall n F, P F -> P (n :: F)).
  { induction n as [d | d | i t cl ch IHch] using node_rose_ind; intros F HF.
    - now apply HT.
    - now apply HC.
    - apply HE; [| exact HF].
      induction IHch as [| c ch Hc _ IH]; [exact Hnil | now apply Hc]. }
  induction F as [| n F IH]; [exact Hnil | now apply Hnode].
Qed.

Lemma elems_cons_element i t cl ch F :
  elems (Element i t cl ch :: F) = i :: elems ch ++ elems F.
Proof. reflexivity. Qed.

Lemma elems_app F G : elems (F ++ G) = elems F ++ elems G.
Proof. apply flat_map_app. Qed.

Lemma chain_app i F G : chain i (F ++ G) = chain i F ++ chain i G.
Proof. apply flat_map_app. Qed.

Lemma chain_cons i n F : chain i (n :: F) = inclusiveAncestors i n ++ chain i F.
Proof. reflexivity. Qed.

Lemma chain_single i n : chain i [n] = inclusiveAncestors i n.
Proof. unfold chain; simpl. apply app_nil_r. Qed.

Lemma inclusiveAncestors_element i j t cl ch :
  inclusiveAncestors i (Element j t cl ch) =
  if Nat.eqb j i then [Element j t cl ch]
  else match chain i ch with
       | [] => []
       | up => up ++ [Element j t cl ch]
       end.
Proof. reflexivity. Qed.

(** A handle has ancestors in a list of trees exactly when it names one of
    their elements. *)
Lemma chain_nil_iff i F : chain i F = [] <-> ~ In i (elems F).
Proof.
  induction F as [| d F IH | d F IH | j t cl ch F IHch IHF] using forest_ind.
  - simpl. tauto.
  - exact IH.
  - exact IH.
  - rewrite chain_cons, inclusiveAncestors_element, elems_cons_element.
    rewrite not_in_cons, in_app_iff.
    destruct (Nat.eqb_spec j i) as [-> | Hne].
    + simpl. split; [intros H; discriminate H | intros [H _]; now elim H].
    + destruct (chain i ch) as [| a up] eqn:E.
      * simpl. rewrite IHF. destruct IHch as [IHch _]. specialize (IHch eq_refl).
        assert (i <> j) by congruence. tauto.
      * split.
        -- simpl. intros H; discriminate H.
        -- intros [_ H]. exfalso. apply H. left.
           destruct (in_dec Nat.eq_dec i (elems ch)) as [Hin | Hout]; [exact Hin |].
           apply IHch in Hout. discriminate.
Qed.

Lemma chain_notin i F : ~ In i (elems F) -> chain i F = [].
Proof. apply chain_nil_iff. Qed.

Lemma chain_in i F : In i (elems F) -> chain i F <> [].
Proof. intros H E. apply chain_nil_iff in E. contradiction. Qed.

Lemma NoDup_app_inv {A : Type} (l l' : list A) :
  NoDup (l ++ l') ->
  NoDup l /\ NoDup l' /\ (forall a, In a l -> ~ In a l').
Proof.
  induction l as [| x l IH]; simpl; intros H.
  - repeat split; [constructor | exact H | tauto].
  - inversion H as [| ? ? Hx Hl]; subst.
    destruct (IH Hl) as (H1 & H2 & H3).
    repeat split.
    + constructor; [| exact H1]. intros Hin. apply Hx. apply in_or_app. now left.
    + exact H2.
    + intros a [-> | Ha] Hin'.
      * apply Hx. apply in_or_app. now right.
      * now apply (H3 a).
Qed.

Lemma NoDup_elems_cons i t cl ch F :
  NoDup (elems (Element i t cl ch :: F)) ->
  ~ In i (elems ch) /\ ~ In i (elems F) /\ NoDup (elems ch) /\ NoDup (elems F)
  /\ (forall x, In x (elems ch) -> ~ In x (elems F)).
Proof.
  rewrite elems_cons_element. intros H. inversion H as [| x l Hx Hl]; subst.
  rewrite in_app_iff in Hx.
  destruct (NoDup_app_inv _ _ Hl) as (H1 & H2 & H3).
  repeat split; tauto || assumption.
Qed.

Lemma chain_here i t cl ch F :
  NoDup (elems (Element i t cl ch :: F)) ->
  chain i (Element i t cl ch :: F) = [Element i t cl ch].
Proof.
  intros H. apply NoDup_elems_cons in H as (_ & HF & _).
  rewrite chain_cons, inclusiveAncestors_element, Nat.eqb_refl.
  now rewrite (chain_notin _ _ HF).
Qed.

Lemma chain_inside j i t cl ch F :
  NoDup (elems (Element i t cl ch :: F)) ->
  In j (elems ch) ->
  chain j (Element i t cl ch :: F) = chain j ch ++ [Element i t cl ch].
Proof.
  intros H Hin. apply NoDup_elems_cons in H as (Hi & _ & _ & _ & Hd).
  rewrite chain_cons, inclusiveAncestors_element.
  destruct (Nat.eqb_spec i j) as [-> | _]; [contradiction |].
  rewrite (chain_notin j F (Hd j Hin)), app_nil_r.
  destruct (chain j ch) eqn:E; [| reflexivity].
  now apply chain_in in Hin.
Qed.

Lemma chain_outside j i t cl ch F :
  i <> j -> ~ In j (elems ch) ->
  chain j (Element i t cl ch :: F) = chain j F.
Proof.
  intros Hne Hout.
  rewrite chain_cons, inclusiveAncestors_element.
  destruct (Nat.eqb_spec i j) as [-> | _]; [contradiction |].
  now rewrite (chain_notin j ch Hout).
Qed.

(** The three places a handle can be, relative to the first tree. *)
Lemma chain_cases j i t cl ch F :
  NoDup (elems (Element i t cl ch :: F)) ->
  (i = j /\ chain j (Element i t cl ch :: F) = [Element i t cl ch])
  \/ (i <> j /\ In j (elems ch) /\ ~ In j (elems F)
      /\ chain j (Element i t cl ch :: F) = chain j ch ++ [Element i t cl ch])
  \/ (i <> j /\ ~ In j (elems ch)
      /\ chain j (Element i t cl ch :: F) = chain j F).
Proof.
  intros H.
  destruct (Nat.eq_dec i j) as [-> | Hne].
  - left. split; [reflexivity | now apply chain_here].
  - destruct (in_dec Nat.eq_dec j (elems ch)) as [Hin | Hout].
    + right; left. repeat split; try assumption.
      * apply NoDup_elems_cons in H as (_ & _ & _ & _ & Hd). now apply Hd.
      * now apply chain_inside.
    + right; right. repeat split; try assumption. now apply chain_outside.
Qed.

Lemma chain_elements j F x :
  In x (chain j F) ->
  exists i t cl ch, x = Element i t cl ch /\ In j (elements x)
                    /\ incl (elements x) (elems F).
Proof.
  revert x.
  induction F as [| d F IH | d F IH | i t cl ch F IHch IHF] using forest_ind;
    intros x Hx.
  - destruct Hx.
  - apply IH in Hx as (i & t & cl & ch & -> & H1 & H2). now exists i, t, cl, ch.
  - apply IH in Hx as (i & t & cl & ch & -> & H1 & H2). now exists i, t, cl, ch.
  - rewrite chain_cons, inclusiveAncestors_element in Hx.
    apply in_app_or in Hx as [Hx | Hx].
    + destruct (Nat.eqb_spec i j) as [-> | Hne].
      * destruct Hx as [<- | []]. exists j, t, cl, ch.
        repeat split; [now left |]. intros y Hy. rewrite elems_cons_element.
        simpl in Hy. destruct Hy; [now left | right; apply in_or_app; now left].
      * destruct (chain j ch) as [| a up] eqn:E; [destruct Hx |].
        apply in_app_or in Hx as [Hx | [<- | []]].
        -- apply IHch in Hx as (i' & t' & cl' & ch' & -> & H1 & H2).
           exists i', t', cl', ch'. repeat split; [exact H1 |].
           intros y Hy. rewrite elems_cons_element. right. apply in_or_app. left.
           now apply H2.
        -- exists i, t, cl, ch. repeat split.
           ++ simpl. right. destruct (in_dec Nat.eq_dec j (elems ch)); [assumption |].
              rewrite (chain_notin j ch) in E by assumption. discriminate.
           ++ intros y Hy. rewrite elems_cons_element. simpl in Hy.
              destruct Hy; [now left | right; apply in_or_app; now left].
    + apply IHF in Hx as (i' & t' & cl' & ch' & -> & H1 & H2).
      exists i', t', cl', ch'. repeat split; [exact H1 |].
      intros y Hy. rewrite elems_cons_element. right. apply in_or_app. right.
      now apply H2.
Qed.

(** The nearest inclusive ancestor of a handle is the element it names. *)
Lemma chain_head j F x r : chain j F = x :: r -> uid_of x = Some j.
Proof.
  revert x r.
  induction F as [| d F IH | d F IH | i t cl ch F IHch IHF] using forest_ind;
    intros x r E; try discriminate; try (now apply (IH x r)).
  rewrite chain_cons, inclusiveAncestors_element in E.
  destruct (Nat.eqb_spec i j) as [-> | Hne].
  - simpl in E. now inversion E.
  - destruct (chain j ch) as [| a up] eqn:Ech.
    + now apply (IHF x r).
    + simpl in E. inversion E; subst. now apply (IHch x up).
Qed.

Lemma chain_NoDup j F x :
  NoDup (elems F) -> In x (chain j F) -> NoDup (elements x).
Proof.
  revert x.
  induction F as [| d F IH | d F IH | i t cl ch F IHch IHF] using forest_ind;
    intros x HF Hx; try (now destruct Hx); try (now apply IH).
  destruct (chain_cases j _ _ _ _ _ HF) as [(-> & E) | [(Hne & Hin & Hout & E) | (Hne & Hout & E)]];
    rewrite E in Hx.
  - destruct Hx as [<- | []]. rewrite elems_cons_element in HF.
    inversion HF as [| ? ? Hi Hrest]; subst. apply NoDup_app_inv in Hrest as (Hch & _).
    simpl. constructor; [| exact Hch]. intros H. apply Hi. apply in_or_app. now left.
  - apply NoDup_elems_cons in HF as (Hi & _ & Hch & _).
    apply in_app_or in Hx as [Hx | [<- | []]].
    + now apply IHch.
    + simpl. now constructor.
  - apply NoDup_elems_cons in HF as (_ & _ & _ & HF & _). now apply IHF.
Qed.

(** Every inclusive ancestor heads its own chain: walking up from [j]
    through [a] continues as walking up from [a]. *)
Lemma chain_suffix j F near a far k :
  NoDup (elems F) ->
  chain j F = near ++ a :: far -> uid_of a = Some k ->
  chain k F = a :: far.
Proof.
  revert near far.
  induction F as [| d F IH | d F IH | i t cl ch F IHch IHF] using forest_ind;
    intros near far HF E Ha.
  - now destruct near.
  - now apply (IH near far).
  - now apply (IH near far).
  - pose proof HF as HF'. apply NoDup_elems_cons in HF' as (Hi & HiF & Hch & HFF & Hd).
    destruct (chain_cases j _ _ _ _ _ HF) as [(-> & Ej) | [(Hne & Hin & Hout & Ej) | (Hne & Hout & Ej)]];
      rewrite Ej in E.
    + destruct near as [| ? [| ? ?]]; try discriminate.
      inversion E; subst. simpl in Ha. inversion Ha; subst. exact Ej.
    + (* a is either inside the children or the root itself *)
      destruct far as [| b far' _] using rev_ind.
      * (* a is the last one: the root *)
        apply app_inj_tail in E as [_ <-]. simpl in Ha. inversion Ha; subst.
        now apply chain_here.
      * replace (near ++ a :: far' ++ [b]) with ((near ++ a :: far') ++ [b]) in E
          by now rewrite <- app_assoc.
        apply app_inj_tail in E as [E <-].
        pose proof (IHch near far' Hch E Ha) as Ek.
        assert (Hk : In k (elems ch)).
        { destruct (in_dec Nat.eq_dec k (elems ch)) as [H | H]; [exact H |].
          rewrite (chain_notin _ _ H) in Ek. discriminate. }
        rewrite (chain_inside k _ _ _ _ _ HF Hk), Ek. reflexivity.
    + pose proof (IHF near far HFF E Ha) as Ek.
      assert (Hk : In k (elems F)).
      { destruct (in_dec Nat.eq_dec k (elems F)) as [H | H]; [exact H |].
        rewrite (chain_notin _ _ H) in Ek. discriminate. }
      rewrite chain_outside; [exact Ek | |].
      * intros ->. contradiction.
      * intros H. now apply (Hd k).
Qed.

(** Below an element, the chain of a descendant is its chain among the
    children followed by the chain of the element. *)
Lemma chain_children c F t cl ch rest j :
  NoDup (elems F) ->
  chain c F = Element c t cl ch :: rest ->
  In j (elems ch) ->
  chain j F = chain j ch ++ chain c F.
Proof.
  revert rest.
  induction F as [| d F IH | d F IH | i t0 cl0 ch0 F IHch IHF] using forest_ind;
    intros rest HF E Hj; try discriminate; try (now apply (IH rest)).
  pose proof HF as HF'. apply NoDup_elems_cons in HF' as (Hi & HiF & Hch & HFF & Hd).
  destruct (chain_cases c _ _ _ _ _ HF) as [(-> & Ec) | [(Hne & Hin & Hout & Ec) | (Hne & Hout & Ec)]];
    rewrite Ec in E |- *.
  - inversion E; subst. now apply chain_inside.
  - destruct (chain c ch0) as [| x r] eqn:Ex; [now apply chain_in in Hin |].
    simpl in E. inversion E; subst.
    assert (Hj0 : In j (elems ch0)).
    { destruct (chain_elements c ch0 (Element c t cl ch)) as (? & ? & ? & ? & _ & _ & Hincl).
      - rewrite Ex. now left.
      - apply Hincl. simpl. now right. }
    rewrite (chain_inside j _ _ _ _ _ HF Hj0).
    rewrite (IHch r Hch eq_refl Hj). now rewrite <- app_assoc.
  - assert (HjF : In j (elems F)).
    { destruct (chain_elements c F (Element c t cl ch)) as (? & ? & ? & ? & _ & _ & Hincl).
      - rewrite E. now left.
      - apply Hincl. simpl. now right. }
    rewrite chain_outside.
    + now apply (IHF rest).
    + intros ->. contradiction.
    + intros H. now apply (Hd j).
Qed.

(** ** Rewriting one element *)

Lemma existsb_cons_eq {A : Type} (f : A -> bool) x l :
  existsb f (x :: l) = f x || existsb f l.
Proof. reflexivity. Qed.

Lemma flat_map_cons_eq {A B : Type} (f : A -> list B) x l :
  flat_map f (x :: l) = f x ++ flat_map f l.
Proof. reflexivity. Qed.

Lemma update_element c f j t cl ch :
  update c f (Element j t cl ch) =
  if Nat.eqb j c then f (Element j t cl ch)
  else Element j t cl (map (update c f) ch).
Proof. reflexivity. Qed.

Lemma add_element token j t cl ch :
  add token (Element j t cl ch) =
  Element j t (if contains cl token then cl else cl ++ [token]) ch.
Proof. reflexivity. Qed.

Lemma replaceAll_flat s j t cl ch :
  replaceAll s (Element j t cl ch) = Element j t cl (flat s).
Proof. reflexivity. Qed.

Lemma update_absent c f F : ~ In c (elems F) -> map (update c f) F = F.
Proof.
  induction F as [| d F IH | d F IH | i t cl ch F IHch IHF] using forest_ind;
    intros Hc; simpl; try reflexivity; try (now rewrite IH).
  rewrite elems_cons_element in Hc. simpl in Hc. rewrite in_app_iff in Hc.
  destruct (Nat.eqb_spec i c) as [-> | Hne]; [tauto |].
  rewrite IHch, IHF by tauto. reflexivity.
Qed.

Lemma update_absent_node c f n : ~ In c (elements n) -> update c f n = n.
Proof.
  intros H. assert (E : map (update c f) [n] = [n]).
  { apply update_absent. unfold elems. simpl. now rewrite app_nil_r. }
  simpl in E. congruence.
Qed.

Lemma classList_of_update c f x i :
  uid_of x = Some i -> i <> c -> classList_of (update c f x) = classList_of x.
Proof.
  destruct x as [d | d | j t cl ch]; simpl; try discriminate.
  intros [= ->] Hne. now destruct (Nat.eqb_spec i c).
Qed.

Lemma localName_of_update_add c token x :
  localName_of (update c (add token) x) = localName_of x.
Proof.
  destruct x as [d | d | j t cl ch]; simpl; try reflexivity.
  now destruct (Nat.eqb j c).
Qed.

Lemma uid_of_update_add c token x : uid_of (update c (add token) x) = uid_of x.
Proof.
  destruct x as [d | d | j t cl ch]; simpl; try reflexivity.
  now destruct (Nat.eqb j c).
Qed.

Lemma uid_of_update_replaceAll c s x :
  uid_of (update c (replaceAll s) x) = uid_of x.
Proof.
  destruct x as [d | d | j t cl ch]; simpl; try reflexivity.
  now destruct (Nat.eqb j c).
Qed.

Lemma localName_of_update_replaceAll c s x :
  localName_of (update c (replaceAll s) x) = localName_of x.
Proof.
  destruct x as [d | d | j t cl ch]; simpl; try reflexivity.
  now destruct (Nat.eqb j c).
Qed.

Lemma classList_of_update_replaceAll c s x :
  classList_of (update c (replaceAll s) x) = classList_of x.
Proof.
  destruct x as [d | d | j t cl ch]; simpl; try reflexivity.
  now destruct (Nat.eqb j c).
Qed.

(** *** Adding a class token *)

Lemma elems_update_add c token F :
  elems (map (update c (add token)) F) = elems F.
Proof.
  induction F as [| d F IH | d F IH | i t cl ch F IHch IHF] using forest_ind;
    try reflexivity; try exact IH.
  rewrite map_cons, update_element. destruct (Nat.eqb i c).
  - rewrite add_element, !elems_cons_element. now rewrite IHF.
  - rewrite !elems_cons_element. now rewrite IHch, IHF.
Qed.

Lemma chain_update_add c token j F :
  NoDup (elems F) ->
  chain j (map (update c (add token)) F) = map (update c (add token)) (chain j F).
Proof.
  induction F as [| d F IH | d F IH | i t cl ch F IHch IHF] using forest_ind;
    intros HF; try reflexivity; try (now apply IH).
  pose proof HF as HF'. apply NoDup_elems_cons in HF' as (Hi & HiF & Hch & HFF & Hd).
  rewrite map_cons, !chain_cons, map_app, <- IHF by assumption.
  f_equal.
  rewrite update_element. destruct (Nat.eqb_spec i c) as [-> | Hne].
  - (* the root is the element being rewritten: nothing changes below it *)
    rewrite add_element, !inclusiveAncestors_element.
    destruct (Nat.eqb_spec c j) as [-> | Hne].
    + simpl. now rewrite Nat.eqb_refl.
    + destruct (chain j ch) as [| a up] eqn:E; [reflexivity |].
      rewrite map_app. simpl map at 2. rewrite Nat.eqb_refl. f_equal.
      rewrite <- E.
      assert (Hmap : forall x, In x (chain j ch) -> update c (add token) x = x).
      { intros x Hx. apply update_absent_node.
        destruct (chain_elements _ _ _ Hx) as (? & ? & ? & ? & _ & _ & Hincl).
        intros H. apply Hi. now apply Hincl. }
      clear E. induction (chain j ch) as [| y l IHl]; [reflexivity |].
      simpl. rewrite Hmap by now left. f_equal. apply IHl.
      intros x Hx. apply Hmap. now right.
  - rewrite !inclusiveAncestors_element.
    destruct (Nat.eqb_spec i j) as [-> | Hne'].
    + simpl. destruct (Nat.eqb_spec j c); [contradiction | reflexivity].
    + rewrite IHch by assumption.
      destruct (chain j ch) as [| a up] eqn:E; [reflexivity |].
      rewrite map_app.
      change (map (update c (add token)) [Element i t cl ch])
        with [update c (add token) (Element i t cl ch)].
      rewrite update_element.
      destruct (Nat.eqb_spec i c); [contradiction |].
      reflexivity.
Qed.

Lemma textContent_update_add c token F :
  map textContent (map (update c (add token)) F) = map textContent F.
Proof.
  induction F as [| d F IH | d F IH | i t cl ch F IHch IHF] using forest_ind;
    try reflexivity; try (simpl; now rewrite IH).
  rewrite !map_cons, IHF. f_equal.
  rewrite update_element. destruct (Nat.eqb i c); [reflexivity |].
  simpl. now rewrite IHch.
Qed.

Lemma has_element_update_add name c token F :
  existsb (has_element name) (map (update c (add token)) F)
  = existsb (has_element name) F.
Proof.
  induction F as [| d F IH | d F IH | i t cl ch F IHch IHF] using forest_ind;
    try reflexivity; try exact IH.
  rewrite map_cons, !existsb_cons_eq, IHF. f_equal.
  rewrite update_element. destruct (Nat.eqb i c); [reflexivity |].
  simpl. now rewrite IHch.
Qed.

Lemma select_pre_code_update_add b c token F :
  flat_map (select_pre_code b) (map (update c (add token)) F)
  = flat_map (select_pre_code b) F.
Proof.
  revert b.
  induction F as [| d F IH | d F IH | i t cl ch F IHch IHF] using forest_ind;
    intros b; try reflexivity; try apply IH.
  rewrite map_cons, !flat_map_cons_eq, IHF. f_equal.
  rewrite update_element. destruct (Nat.eqb i c); [reflexivity |].
  simpl. now rewrite IHch.
Qed.

Lemma map_update_chain_absent c f j F :
  ~ In c (elems F) -> map (update c f) (chain j F) = chain j F.
Proof.
  intros Hc. rewrite <- (map_id (chain j F)) at 2.
  apply map_ext_in. intros x Hx. apply update_absent_node.
  destruct (chain_elements _ _ _ Hx) as (? & ? & ? & ? & _ & _ & Hincl).
  intros H. apply Hc. now apply Hincl.
Qed.

(** *** Replacing the children by their text *)

Lemma append_empty_r s : (s ++ "")%string = s.
Proof. induction s as [| a s IH]; simpl; [reflexivity | now rewrite IH]. Qed.

Lemma joined_flat s : joined (map textContent (flat s)) = s.
Proof.
  unfold flat. destruct (String.eqb_spec s "") as [-> | _]; [reflexivity |].
  simpl. apply append_empty_r.
Qed.

Lemma elems_flat s : elems (flat s) = [].
Proof. unfold flat. now destruct (String.eqb s ""). Qed.

Lemma chain_flat j s : chain j (flat s) = [].
Proof. unfold flat. now destruct (String.eqb s ""). Qed.

Lemma has_element_flat name s : existsb (has_element name) (flat s) = false.
Proof. unfold flat. now destruct (String.eqb s ""). Qed.

Lemma select_pre_code_flat b s : flat_map (select_pre_code b) (flat s) = [].
Proof. unfold flat. now destruct (String.eqb s ""). Qed.

(** The elements of the rewritten trees and of the removed children are
    those of the original trees. *)
Lemma elems_update_replaceAll c s F t cl ch rest :
  NoDup (elems F) ->
  chain c F = Element c t cl ch :: rest ->
  Permutation (elems F) (elems (map (update c (replaceAll s)) F) ++ elems ch).
Proof.
  revert rest.
  induction F as [| d F IH | d F IH | i t0 cl0 ch0 F IHch IHF] using forest_ind;
    intros rest HF E; try discriminate; try (now apply (IH rest)).
  pose proof HF as HF'. apply NoDup_elems_cons in HF' as (Hi & HiF & Hch & HFF & Hd).
  rewrite map_cons, update_element.
  destruct (chain_cases c _ _ _ _ _ HF) as [(-> & Ec) | [(Hne & Hin & Hout & Ec) | (Hne & Hout & Ec)]];
    rewrite Ec in E.
  - inversion E; subst. rewrite Nat.eqb_refl, replaceAll_flat.
    rewrite !elems_cons_element, elems_flat, update_absent by assumption.
    simpl. constructor. apply Permutation_app_comm.
  - destruct (Nat.eqb_spec i c); [contradiction |].
    destruct (chain c ch0) as [| x r] eqn:Ex; [now apply chain_in in Hin |].
    simpl in E. inversion E; subst.
    rewrite !elems_cons_element, (update_absent c _ F) by assumption.
    simpl. constructor.
    transitivity ((elems (map (update c (replaceAll s)) ch0) ++ elems ch) ++ elems F).
    { apply Permutation_app_tail. apply (IHch r Hch eq_refl). }
    rewrite <- !app_assoc. apply Permutation_app_head. apply Permutation_app_comm.
  - destruct (Nat.eqb_spec i c); [contradiction |].
    rewrite !elems_cons_element, (update_absent c _ ch0) by assumption.
    simpl. constructor. rewrite <- app_assoc. apply Permutation_app_head.
    now apply (IHF rest).
Qed.

Lemma chain_update_replaceAll_removed c s F t cl ch rest j :
  NoDup (elems F) ->
  chain c F = Element c t cl ch :: rest ->
  In j (elems ch) ->
  chain j (map (update c (replaceAll s)) F) = [].
Proof.
  intros HF E Hj. apply chain_notin. intros Hin.
  pose proof (elems_update_replaceAll c s F t cl ch rest HF E) as HP.
  apply (Permutation_NoDup HP) in HF.
  apply NoDup_app_inv in HF as (_ & _ & Hd). now apply (Hd j).
Qed.

Lemma chain_update_replaceAll_kept c s F t cl ch rest j :
  NoDup (elems F) ->
  chain c F = Element c t cl ch :: rest ->
  ~ In j (elems ch) ->
  chain j (map (update c (replaceAll s)) F)
  = map (update c (replaceAll s)) (chain j F).
Proof.
  revert rest.
  induction F as [| d F IH | d F IH | i t0 cl0 ch0 F IHch IHF] using forest_ind;
    intros rest HF E Hj; try discriminate; try (now apply (IH rest)).
  pose proof HF as HF'. apply NoDup_elems_cons in HF' as (Hi & HiF & Hch & HFF & Hd).
  destruct (chain_cases c _ _ _ _ _ HF) as [(-> & Ec) | [(Hne & Hin & Hout & Ec) | (Hne & Hout & Ec)]];
    rewrite Ec in E.
  - (* the first tree is the element itself *)
    inversion E; subst.
    rewrite map_cons, update_element, Nat.eqb_refl, replaceAll_flat.
    rewrite (update_absent c _ F) by assumption.
    rewrite !chain_cons, !inclusiveAncestors_element.
    rewrite chain_flat, (chain_notin j ch Hj).
    destruct (Nat.eqb_spec c j) as [-> | Hne].
    + rewrite (chain_notin j F) by assumption. simpl.
      now rewrite Nat.eqb_refl.
    + simpl. symmetry. now apply map_update_chain_absent.
  - (* the element is below the first tree *)
    destruct (chain c ch0) as [| x r] eqn:Ex; [now apply chain_in in Hin |].
    simpl in E. inversion E; subst.
    rewrite map_cons, update_element.
    destruct (Nat.eqb_spec i c); [contradiction |].
    rewrite (update_absent c _ F) by assumption.
    rewrite !chain_cons, map_app, (map_update_chain_absent c _ j F) by assumption.
    f_equal.
    rewrite !inclusiveAncestors_element.
    destruct (Nat.eqb_spec i j) as [-> | Hne'].
    + simpl. destruct (Nat.eqb_spec j c); [contradiction | reflexivity].
    + rewrite (IHch r Hch eq_refl Hj).
      destruct (chain j ch0) as [| a up]; [reflexivity |].
      rewrite map_app.
      change (map (update c (replaceAll s)) [Element i t0 cl0 ch0])
        with [update c (replaceAll s) (Element i t0 cl0 ch0)].
      rewrite update_element.
      destruct (Nat.eqb_spec i c); [contradiction | reflexivity].
  - (* the element is in a later tree *)
    rewrite map_cons, !chain_cons, map_app.
    rewrite (IHF rest HFF E Hj). f_equal.
    rewrite update_absent_node.
    + assert (H : ~ In c (elems [Element i t0 cl0 ch0])).
      { unfold elems. simpl. rewrite app_nil_r. intros [-> | H]; contradiction. }
      pose proof (map_update_chain_absent c (replaceAll s) j _ H) as Hm.
      now rewrite chain_single in Hm.
    + simpl. intros [-> | H]; contradiction.
Qed.

Lemma textContent_update_replaceAll c F x rest :
  NoDup (elems F) ->
  chain c F = x :: rest ->
  map textContent (map (update c (replaceAll (textContent x))) F)
  = map textContent F.
Proof.
  revert rest.
  induction F as [| d F IH | d F IH | i t0 cl0 ch0 F IHch IHF] using forest_ind;
    intros rest HF E; try discriminate;
    try (simpl; f_equal; now apply (IH rest)).
  pose proof HF as HF'. apply NoDup_elems_cons in HF' as (Hi & HiF & Hch & HFF & Hd).
  rewrite !map_cons, update_element.
  destruct (chain_cases c _ _ _ _ _ HF) as [(-> & Ec) | [(Hne & Hin & Hout & Ec) | (Hne & Hout & Ec)]];
    rewrite Ec in E.
  - inversion E; subst. rewrite Nat.eqb_refl, replaceAll_flat.
    rewrite (update_absent c _ F) by assumption. f_equal.
    simpl. apply joined_flat.
  - destruct (Nat.eqb_spec i c); [contradiction |].
    destruct (chain c ch0) as [| y r] eqn:Ey; [now apply chain_in in Hin |].
    simpl in E. inversion E; subst.
    rewrite (update_absent c _ F) by assumption. f_equal.
    simpl. f_equal. now apply (IHch r).
  - destruct (Nat.eqb_spec i c); [contradiction |].
    rewrite (update_absent c _ ch0) by assumption. f_equal.
    now apply (IHF rest).
Qed.

Lemma has_element_update_replaceAll name c s F :
  existsb (has_element name) (map (update c (replaceAll s)) F) = true ->
  existsb (has_element name) F = true.
Proof.
  induction F as [| d F IH | d F IH | i t cl ch F IHch IHF] using forest_ind;
    try (intros H; exact H); try exact IH.
  rewrite map_cons, !existsb_cons_eq, !orb_true_iff, update_element.
  intros [H | H]; [left | right; now apply IHF].
  destruct (Nat.eqb i c).
  - rewrite replaceAll_flat in H. simpl in H |- *.
    rewrite has_element_flat, orb_false_r in H. now rewrite H.
  - simpl in H |- *. apply orb_true_iff in H as [H | H].
    + now rewrite H.
    + rewrite (IHch H). apply orb_true_r.
Qed.

Lemma select_pre_code_update_replaceAll b c s F x :
  In x (flat_map (select_pre_code b) (map (update c (replaceAll s)) F)) ->
  In x (flat_map (select_pre_code b) F).
Proof.
  revert b.
  induction F as [| d F IH | d F IH | i t cl ch F IHch IHF] using forest_ind;
    intros b; try (intros H; exact H); try apply IH.
  rewrite map_cons, !flat_map_cons_eq, !in_app_iff, update_element.
  intros [H | H]; [left | right; now apply IHF].
  destruct (Nat.eqb i c).
  - rewrite replaceAll_flat in H. simpl in H |- *.
    rewrite select_pre_code_flat, app_nil_r in H.
    apply in_or_app. now left.
  - simpl in H |- *. apply in_app_or in H as [H | H]; apply in_or_app.
    + now left.
    + right. now apply IHch.
Qed.

Lemma select_pre_code_elements b F x :
  In x (flat_map (select_pre_code b) F) -> In x (elems F).
Proof.
  revert b.
  induction F as [| d F IH | d F IH | i t cl ch F IHch IHF] using forest_ind;
    intros b; try (intros H; exact H); try apply IH.
  rewrite flat_map_cons_eq, elems_cons_element. simpl select_pre_code.
  rewrite !in_app_iff. simpl In. rewrite in_app_iff.
  intros [[H | H] | H].
  - destruct (b && String.eqb t "code"); simpl in H; tauto.
  - right. left. now apply (IHch _ H).
  - right. right. now apply (IHF _ H).
Qed.

(** ** Handles in a world *)

Lemma deref_element w j x :
  deref w j = Some x -> exists t cl ch, x = Element j t cl ch.
Proof.
  unfold deref, ancestry. intros H.
  destruct (chain j (forest w)) as [| y r] eqn:E; [discriminate |].
  simpl in H. inversion H; subst.
  pose proof (chain_head _ _ _ _ E) as Hu.
  destruct x as [d | d | i t cl ch]; try discriminate.
  simpl in Hu. inversion Hu; subst. now exists t, cl, ch.
Qed.

Lemma deref_in w j x : deref w j = Some x -> In j (all_elements w).
Proof.
  unfold deref, ancestry, all_elements. intros H.
  destruct (in_dec Nat.eq_dec j (elems (forest w))) as [Hin | Hout]; [exact Hin |].
  rewrite (chain_notin _ _ Hout) in H. discriminate.
Qed.

Lemma in_deref w j : In j (all_elements w) -> exists x, deref w j = Some x.
Proof.
  unfold deref, ancestry, all_elements. intros H.
  apply chain_in in H. destruct (chain j (forest w)) as [| x r]; [contradiction |].
  now exists x.
Qed.

Lemma deref_none w j : deref w j = None -> ~ In j (all_elements w).
Proof. intros H Hin. apply in_deref in Hin as [x Hx]. congruence. Qed.

Lemma ancestry_deref w j x r : ancestry w j = x :: r -> deref w j = Some x.
Proof. unfold deref. now intros ->. Qed.

(** Every inclusive ancestor is the element behind its own handle, and the
    chain above it is its own chain. *)
Lemma ancestry_suffix w j near a far k :
  wf w -> ancestry w j = near ++ a :: far -> uid_of a = Some k ->
  ancestry w k = a :: far.
Proof. unfold wf, ancestry, all_elements. apply chain_suffix. Qed.

(** Walking up: the chain of an element is the element followed by the chain
    of its parent. *)
Lemma ancestry_parent w j p :
  wf w -> parentElement w j = Some p ->
  exists x, deref w j = Some x /\ ancestry w j = x :: ancestry w p.
Proof.
  unfold parentElement. intros Hw H.
  destruct (ancestry w j) as [| x [| a r]] eqn:E; try discriminate.
  exists x. split; [now apply (ancestry_deref _ _ _ _ E) |].
  f_equal. symmetry. now apply (ancestry_suffix w j [x] a r p).
Qed.

Lemma parentElement_in w j p :
  parentElement w j = Some p -> In j (all_elements w).
Proof.
  unfold parentElement. intros H.
  destruct (ancestry w j) as [| x r] eqn:E; [discriminate |].
  apply (deref_in w j x). now apply (ancestry_deref _ _ _ r).
Qed.

(** An element is not among the inclusive ancestors of its parent. *)
Lemma ancestry_parent_fresh w j p :
  wf w -> parentElement w j = Some p ->
  ~ In (Some j) (map uid_of (ancestry w p)).
Proof.
  intros Hw Hp Hin.
  destruct (ancestry_parent w j p Hw Hp) as (x & Hx & E).
  apply in_map_iff in Hin as (a & Ha & Hin).
  apply in_split in Hin as (near & far & Esplit).
  (* the chain of j would contain j twice *)
  assert (E2 : ancestry w j = (x :: near) ++ a :: far).
  { rewrite E, Esplit. reflexivity. }
  pose proof (ancestry_suffix w j (x :: near) a far j Hw E2 Ha) as E3.
  rewrite E3 in E2.
  apply (f_equal (@List.length node)) in E2.
  rewrite List.length_app in E2. simpl in E2. lia.
Qed.

(** ** The two mutations, seen through handles *)

Lemma forest_classList_add c token w :
  forest (classList_add c token w) = map (update c (add token)) (forest w).
Proof. reflexivity. Qed.

Lemma forest_set_textContent c s w :
  forest (set_textContent c s w) =
  map (update c (replaceAll s)) (forest w)
    ++ match deref w c with Some n => childNodes_of n | None => [] end.
Proof. reflexivity. Qed.

Lemma wf_classList_add c token w : wf w -> wf (classList_add c token w).
Proof.
  unfold wf, all_elements. now rewrite forest_classList_add, elems_update_add.
Qed.

Lemma all_elements_classList_add c token w :
  all_elements (classList_add c token w) = all_elements w.
Proof.
  unfold all_elements. now rewrite forest_classList_add, elems_update_add.
Qed.

Lemma ancestry_classList_add c token w j :
  wf w ->
  ancestry (classList_add c token w) j
  = map (update c (add token)) (ancestry w j).
Proof.
  unfold wf, all_elements, ancestry. intros Hw.
  now rewrite forest_classList_add, chain_update_add.
Qed.

Lemma set_textContent_absent c s w : deref w c = None -> set_textContent c s w = w.
Proof.
  intros H. pose proof (deref_none _ _ H) as Hout.
  unfold set_textContent. rewrite H, app_nil_r.
  unfold all_elements, forest in Hout.
  pose proof (update_absent c (replaceAll s) _ Hout) as E.
  simpl in E. injection E as E1 E2. rewrite E1, E2.
  now destruct w.
Qed.

Lemma all_elements_set_textContent c s w t cl ch :
  wf w -> deref w c = Some (Element c t cl ch) ->
  Permutation (all_elements w) (all_elements (set_textContent c s w)).
Proof.
  unfold wf, all_elements, deref, ancestry. intros Hw H.
  destruct (chain c (forest w)) as [| x rest] eqn:E; [discriminate |].
  simpl in H. inversion H; subst.
  fold (ancestry w c) in E. apply ancestry_deref in E as Hd.
  rewrite forest_set_textContent, Hd, elems_app. simpl childNodes_of.
  now apply (elems_update_replaceAll c s (forest w) t cl ch rest).
Qed.

Lemma wf_set_textContent c s w : wf w -> wf (set_textContent c s w).
Proof.
  intros Hw. destruct (deref w c) as [x |] eqn:E.
  - destruct (deref_element _ _ _ E) as (t & cl & ch & ->).
    unfold wf. eapply Permutation_NoDup; [| exact Hw].
    now apply (all_elements_set_textContent c s w t cl ch).
  - now rewrite set_textContent_absent.
Qed.

Lemma ancestry_set_textContent_removed c s w t cl ch j :
  wf w -> deref w c = Some (Element c t cl ch) -> In j (elems ch) ->
  ancestry (set_textContent c s w) j = chain j ch
  /\ ancestry w j = chain j ch ++ ancestry w c.
Proof.
  unfold wf, all_elements. intros Hw H Hj.
  pose proof H as H'. unfold deref in H'.
  destruct (ancestry w c) as [| x rest] eqn:E; [discriminate |].
  simpl in H'. inversion H'; subst. unfold ancestry in *.
  split.
  - rewrite forest_set_textContent, H, chain_app. simpl childNodes_of.
    now rewrite (chain_update_replaceAll_removed c s _ t cl ch rest j).
  - rewrite <- E. now apply (chain_children c _ t cl ch rest j).
Qed.

Lemma ancestry_set_textContent_kept c s w t cl ch j :
  wf w -> deref w c = Some (Element c t cl ch) -> ~ In j (elems ch) ->
  ancestry (set_textContent c s w) j
  = map (update c (replaceAll s)) (ancestry w j).
Proof.
  unfold wf, all_elements. intros Hw H Hj.
  pose proof H as H'. unfold deref in H'.
  destruct (ancestry w c) as [| x rest] eqn:E; [discriminate |].
  simpl in H'. inversion H'; subst. unfold ancestry in *.
  rewrite forest_set_textContent, H, chain_app. simpl childNodes_of.
  rewrite (chain_notin j ch Hj), app_nil_r.
  now apply (chain_update_replaceAll_kept c s _ t cl ch rest j).
Qed.

Lemma elems_single x : elems [x] = elements x.
Proof. unfold elems. simpl. apply app_nil_r. Qed.

(** Inside an inclusive ancestor [x] of some handle, the chain of any
    element of [x] starts as it does in the whole forest. *)
Lemma chain_within F j x r c y r' :
  NoDup (elems F) ->
  chain j F = x :: r -> chain c F = y :: r' -> In c (elements x) ->
  exists up, chain c [x] = y :: up.
Proof.
  intros HF Ej Ec Hc.
  pose proof (chain_head _ _ _ _ Ej) as Hu.
  assert (Hx : NoDup (elems [x])).
  { rewrite elems_single. apply (chain_NoDup j F); [exact HF |]. rewrite Ej. now left. }
  destruct x as [d | d | i t cl ch]; try discriminate.
  simpl in Hu. inversion Hu; subst i.
  simpl in Hc. destruct Hc as [<- | Hc].
  - rewrite Ej in Ec. inversion Ec; subst. exists []. now apply chain_here.
  - rewrite (chain_children j F t cl ch r c HF Ej Hc) in Ec.
    rewrite (chain_inside c j t cl ch [] Hx Hc).
    destruct (chain c ch) as [| z up] eqn:E; [now apply chain_in in Hc |].
    simpl in Ec. inversion Ec; subst. now exists (up ++ [Element j t cl ch]).
Qed.

Lemma textContent_update_node c x y up :
  NoDup (elements x) -> chain c [x] = y :: up ->
  textContent (update c (replaceAll (textContent y)) x) = textContent x.
Proof.
  intros Hx E. rewrite <- elems_single in Hx.
  pose proof (textContent_update_replaceAll c [x] y up Hx E) as H.
  simpl in H. congruence.
Qed.

(** *** Views of a world *)

Lemma deref_classList_add c token w j :
  wf w ->
  deref (classList_add c token w) j
  = option_map (update c (add token)) (deref w j).
Proof.
  intros Hw. unfold deref. rewrite ancestry_classList_add by assumption.
  now destruct (ancestry w j).
Qed.

Lemma deref_set_textContent c s w j :
  wf w ->
  deref (set_textContent c s w) j
  = option_map (update c (replaceAll s)) (deref w j).
Proof.
  intros Hw. destruct (deref w c) as [x |] eqn:Ec.
  - destruct (deref_element _ _ _ Ec) as (t & cl & ch & ->).
    destruct (in_dec Nat.eq_dec j (elems ch)) as [Hin | Hout].
    + destruct (ancestry_set_textContent_removed c s w t cl ch j Hw Ec Hin) as (E1 & E2).
      unfold deref at 1 2. rewrite E1, E2.
      destruct (chain j ch) as [| xj r] eqn:E; [now apply chain_in in Hin |].
      simpl. f_equal. symmetry. apply update_absent_node.
      (* xj lies below c, and c does not occur below itself *)
      destruct (chain_elements j ch xj) as (? & ? & ? & ? & _ & _ & Hincl).
      { rewrite E. now left. }
      intros H. apply Hincl in H.
      assert (Hnd : NoDup (elements (Element c t cl ch))).
      { unfold deref in Ec. destruct (ancestry w c) as [| y r'] eqn:E'; [discriminate |].
        simpl in Ec. inversion Ec; subst.
        apply (chain_NoDup c (forest w)); [exact Hw |].
        unfold ancestry in E'. rewrite E'. now left. }
      simpl in Hnd. inversion Hnd. contradiction.
    + unfold deref at 1. rewrite (ancestry_set_textContent_kept c s w t cl ch j Hw Ec Hout).
      unfold deref. now destruct (ancestry w j).
  - rewrite set_textContent_absent by assumption.
    destruct (deref w j) as [xj |] eqn:Ej; [| reflexivity].
    simpl. f_equal. symmetry. apply update_absent_node.
    intros H. apply (deref_none _ _ Ec).
    unfold deref in Ej. destruct (ancestry w j) as [| y r] eqn:E; [discriminate |].
    simpl in Ej. inversion Ej; subst.
    destruct (chain_elements j (forest w) xj) as (? & ? & ? & ? & _ & _ & Hincl).
    { unfold ancestry in E. rewrite E. now left. }
    now apply Hincl.
Qed.

Lemma classes_set_textContent c s w j :
  wf w -> classes (set_textContent c s w) j = classes w j.
Proof.
  intros Hw. unfold classes. rewrite deref_set_textContent by assumption.
  destruct (deref w j); [| reflexivity]. apply classList_of_update_replaceAll.
Qed.

Lemma localName_set_textContent c s w j :
  wf w -> localName (set_textContent c s w) j = localName w j.
Proof.
  intros Hw. unfold localName. rewrite deref_set_textContent by assumption.
  destruct (deref w j); [| reflexivity]. apply localName_of_update_replaceAll.
Qed.

Lemma localName_classList_add c token w j :
  wf w -> localName (classList_add c token w) j = localName w j.
Proof.
  intros Hw. unfold localName. rewrite deref_classList_add by assumption.
  destruct (deref w j); [| reflexivity]. apply localName_of_update_add.
Qed.

Lemma classes_classList_add_other c token w j :
  wf w -> j <> c -> classes (classList_add c token w) j = classes w j.
Proof.
  intros Hw Hne. unfold classes. rewrite deref_classList_add by assumption.
  destruct (deref w j) as [x |] eqn:E; [| reflexivity].
  destruct (deref_element _ _ _ E) as (t & cl & ch & ->).
  cbn [option_map]. now apply (classList_of_update c _ _ j).
Qed.

Lemma classes_classList_add_same c token w x :
  wf w -> deref w c = Some x ->
  classes (classList_add c token w) c
  = if contains (classes w c) token then classes w c else classes w c ++ [token].
Proof.
  intros Hw E. unfold classes. rewrite deref_classList_add, E by assumption.
  destruct (deref_element _ _ _ E) as (t & cl & ch & ->).
  simpl. now rewrite Nat.eqb_refl.
Qed.

Lemma get_textContent_classList_add c token w j :
  wf w -> get_textContent (classList_add c token w) j = get_textContent w j.
Proof.
  intros Hw. unfold get_textContent. rewrite deref_classList_add by assumption.
  destruct (deref w j) as [x |]; [| reflexivity].
  simpl. pose proof (textContent_update_add c token [x]) as H.
  simpl in H. congruence.
Qed.

Lemma querySelector_update_add name c token x :
  querySelector name (update c (add token) x) = querySelector name x.
Proof.
  destruct x as [d | d | i t cl ch]; try reflexivity.
  unfold querySelector. rewrite update_element.
  destruct (Nat.eqb i c); [reflexivity |].
  simpl. apply has_element_update_add.
Qed.

Lemma querySelector_span_classList_add c token w j :
  wf w -> querySelector_span (classList_add c token w) j = querySelector_span w j.
Proof.
  intros Hw. unfold querySelector_span. rewrite deref_classList_add by assumption.
  destruct (deref w j) as [x |]; [| reflexivity].
  apply querySelector_update_add.
Qed.

(** Assigning an element its own text leaves every text unchanged. *)
Lemma get_textContent_set_textContent c w j :
  wf w ->
  get_textContent (set_textContent c (get_textContent w c) w) j
  = get_textContent w j.
Proof.
  intros Hw. unfold get_textContent at 1 3.
  rewrite deref_set_textContent by assumption.
  destruct (deref w j) as [xj |] eqn:Ej; [| reflexivity].
  simpl. unfold get_textContent.
  destruct (deref w c) as [y |] eqn:Ec.
  - destruct (in_dec Nat.eq_dec c (elements xj)) as [Hin | Hout].
    + unfold deref in Ej, Ec.
      destruct (ancestry w j) as [| xj' r] eqn:E1; [discriminate |].
      destruct (ancestry w c) as [| y' r'] eqn:E2; [discriminate |].
      simpl in Ej, Ec. inversion Ej; inversion Ec; subst.
      destruct (chain_within (forest w) j xj r c y r' Hw E1 E2 Hin) as (up & E).
      apply (textContent_update_node c xj y up); [| exact E].
      apply (chain_NoDup j (forest w)); [exact Hw |].
      unfold ancestry in E1. rewrite E1. now left.
    + now rewrite update_absent_node.
  - rewrite update_absent_node; [reflexivity |].
    intros H. apply (deref_none _ _ Ec).
    unfold deref in Ej. destruct (ancestry w j) as [| y r] eqn:E; [discriminate |].
    simpl in Ej. inversion Ej; subst.
    destruct (chain_elements j (forest w) xj) as (? & ? & ? & ? & _ & _ & Hincl).
    { unfold ancestry in E. rewrite E. now left. }
    now apply Hincl.
Qed.

Lemma querySelector_update_replaceAll name c s x :
  querySelector name (update c (replaceAll s) x) = true ->
  querySelector name x = true /\ uid_of x <> Some c.
Proof.
  destruct x as [d | d | i t cl ch]; try discriminate.
  unfold querySelector. rewrite update_element.
  destruct (Nat.eqb_spec i c) as [-> | Hne].
  - rewrite replaceAll_flat. simpl. now rewrite has_element_flat.
  - simpl. intros H. split; [| congruence].
    now apply (has_element_update_replaceAll name c s).
Qed.

Lemma querySelector_span_set_textContent c s w j :
  wf w -> querySelector_span (set_textContent c s w) j = true ->
  querySelector_span w j = true /\ j <> c.
Proof.
  intros Hw. unfold querySelector_span. rewrite deref_set_textContent by assumption.
  destruct (deref w j) as [x |] eqn:E; [| discriminate].
  simpl. intros H. apply querySelector_update_replaceAll in H as [H1 H2].
  split; [exact H1 |]. intros ->.
  destruct (deref_element _ _ _ E) as (t & cl & ch & ->). now apply H2.
Qed.

(** ** The stages *)

Lemma find_classList_ext (P : list string -> bool) (up up' : list node) :
  map classList_of up = map classList_of up' ->
  option_map classList_of (find (fun a => P (classList_of a)) up)
  = option_map classList_of (find (fun a => P (classList_of a)) up').
Proof.
  revert up'. induction up as [| a up IH]; intros [| a' up'] E; try discriminate.
  - reflexivity.
  - simpl in E. injection E as E1 E2. simpl. rewrite E1.
    destruct (P (classList_of a')); [simpl; now rewrite E1 | now apply IH].
Qed.

(** The language class depends on the class lists along the chain only. *)
Lemma langClass_from_ext up up' :
  map classList_of up = map classList_of up' ->
  langClass_from up = langClass_from up'.
Proof.
  intros E. unfold langClass_from, source_of.
  pose proof (find_classList_ext (fun cl => contains cl "highlighter-rouge") up up' E) as H.
  unfold has_class.
  destruct (find _ up) as [a |], (find _ up') as [a' |]; simpl in H; try discriminate.
  - now inversion H.
  - destruct up as [| x up], up' as [| x' up']; try discriminate; [reflexivity |].
    simpl in E. injection E as E1 _. simpl. now rewrite E1.
Qed.

Lemma langClass_of_ancestry w p :
  wf w -> langClass_of w (Some p) = Normal (langClass_from (ancestry w p)).
Proof.
  intros Hw. unfold langClass_of, closest, langClass_from, source_of. simpl bind.
  destruct (find (has_class "highlighter-rouge") (ancestry w p)) as [a |] eqn:E.
  - apply find_some in E as [Hin _].
    apply in_split in Hin as (near & far & Esplit).
    destruct (chain_elements p (forest w) a) as (k & t & cl & ch & -> & _).
    { unfold ancestry in Esplit. rewrite Esplit. apply in_or_app. right. now left. }
    simpl. unfold classes.
    rewrite (ancestry_deref w k (Element k t cl ch) far); [reflexivity |].
    now apply (ancestry_suffix w p near (Element k t cl ch) far k).
  - simpl. unfold classes, deref. now destruct (ancestry w p).
Qed.

Lemma resolver_resolved c p w :
  wf w -> resolver c (Some p) w = Normal (resolved c p w).
Proof.
  intros Hw. unfold resolver, resolved. rewrite langClass_of_ancestry by assumption.
  simpl. destruct (langClass_from (ancestry w p)) as [token |]; [| reflexivity].
  unfold classList_contains. now destruct (contains (classes w c) token).
Qed.

Lemma highlightElement_logged c w :
  highlightElement loaded c w = Normal (logged c w).
Proof. reflexivity. Qed.

(** The callback, as a composition of its three stages. *)
Lemma callback_stages c w p :
  wf w -> parentElement w c = Some p ->
  callback loaded c w = Normal (logged c (resolved c p (stripper c w))).
Proof.
  intros Hw Hp. unfold callback. rewrite Hp.
  rewrite resolver_resolved; [reflexivity |].
  unfold stripper. destruct (querySelector_span w c); [| exact Hw].
  now apply wf_set_textContent.
Qed.

Lemma callback_skip win c w :
  parentElement w c = None -> callback win c w = Normal w.
Proof. unfold callback. now intros ->. Qed.

(** *** The stripper *)

Lemma wf_stripper c w : wf w -> wf (stripper c w).
Proof.
  intros Hw. unfold stripper. destruct (querySelector_span w c); [| exact Hw].
  now apply wf_set_textContent.
Qed.

Lemma highlighted_stripper c w : highlighted (stripper c w) = highlighted w.
Proof. unfold stripper. now destruct (querySelector_span w c). Qed.

Lemma classes_stripper c w j : wf w -> classes (stripper c w) j = classes w j.
Proof.
  intros Hw. unfold stripper. destruct (querySelector_span w c); [| reflexivity].
  now apply classes_set_textContent.
Qed.

Lemma localName_stripper c w j : wf w -> localName (stripper c w) j = localName w j.
Proof.
  intros Hw. unfold stripper. destruct (querySelector_span w c); [| reflexivity].
  now apply localName_set_textContent.
Qed.

Lemma get_textContent_stripper c w j :
  wf w -> get_textContent (stripper c w) j = get_textContent w j.
Proof.
  intros Hw. unfold stripper. destruct (querySelector_span w c); [| reflexivity].
  now apply get_textContent_set_textContent.
Qed.

Lemma querySelector_span_stripper c w j :
  wf w -> querySelector_span (stripper c w) j = true ->
  querySelector_span w j = true.
Proof.
  intros Hw. unfold stripper. destruct (querySelector_span w c) eqn:E; [| tauto].
  intros H. now apply querySelector_span_set_textContent in H.
Qed.

Lemma querySelector_span_stripper_self c w :
  wf w -> querySelector_span (stripper c w) c = false.
Proof.
  intros Hw. unfold stripper. destruct (querySelector_span w c) eqn:E; [| exact E].
  destruct (querySelector_span (set_textContent c (get_textContent w c) w) c) eqn:E';
    [| reflexivity].
  apply querySelector_span_set_textContent in E' as [_ H]; [| exact Hw]. now elim H.
Qed.

Lemma deref_stripper_some c w j x :
  wf w -> deref w j = Some x -> exists x', deref (stripper c w) j = Some x'.
Proof.
  intros Hw E. unfold stripper. destruct (querySelector_span w c); [| now exists x].
  rewrite deref_set_textContent, E by assumption. simpl. eauto.
Qed.

Lemma map_uid_of_update_replaceAll c s l :
  map uid_of (map (update c (replaceAll s)) l) = map uid_of l.
Proof.
  rewrite map_map. apply map_ext. intros x. apply uid_of_update_replaceAll.
Qed.

Lemma map_classList_of_update_replaceAll c s l :
  map classList_of (map (update c (replaceAll s)) l) = map classList_of l.
Proof.
  rewrite map_map. apply map_ext. intros x. apply classList_of_update_replaceAll.
Qed.

Lemma map_uid_of_update_add c token l :
  map uid_of (map (update c (add token)) l) = map uid_of l.
Proof.
  rewrite map_map. apply map_ext. intros x. apply uid_of_update_add.
Qed.

Lemma parentElement_uids w j :
  parentElement w j =
  match map uid_of (ancestry w j) with
  | _ :: Some p :: _ => Some p
  | _ => None
  end.
Proof.
  unfold parentElement. destruct (ancestry w j) as [| x [| a r]]; try reflexivity.
  simpl. now destruct (uid_of a).
Qed.

(** A handle whose element has a span below it names an element. *)
Lemma querySelector_span_deref w c :
  querySelector_span w c = true -> exists t cl ch, deref w c = Some (Element c t cl ch).
Proof.
  unfold querySelector_span. destruct (deref w c) as [x |] eqn:E; [| discriminate].
  intros _. destruct (deref_element _ _ _ E) as (t & cl & ch & ->). eauto.
Qed.

(** The children of [c] are exactly the elements that have [c] as a strict
    ancestor. *)
Lemma below_iff_ancestor w c t cl ch j :
  wf w -> deref w c = Some (Element c t cl ch) ->
  In j (elems ch) <-> In (Some c) (map uid_of (tl (ancestry w j))).
Proof.
  intros Hw Ec. split.
  - intros Hj.
    assert (E := chain_children c (forest w) t cl ch).
    unfold deref in Ec. destruct (ancestry w c) as [| x rest] eqn:E'; [discriminate |].
    simpl in Ec. inversion Ec; subst. unfold ancestry in *.
    rewrite (E rest j Hw E' Hj), E'.
    destruct (chain j ch) as [| y r] eqn:Ey; [now apply chain_in in Hj |].
    simpl. rewrite map_app. apply in_or_app. right. now left.
  - intros Hin.
    destruct (ancestry w j) as [| x r] eqn:Ej; [destruct Hin |].
    simpl in Hin. apply in_map_iff in Hin as (a & Ha & Hin).
    apply in_split in Hin as (near & far & ->).
    pose proof (ancestry_suffix w j (x :: near) a far c Hw Ej Ha) as E.
    unfold deref in Ec. rewrite E in Ec. simpl in Ec. inversion Ec; subst a.
    (* j is an element of an inclusive ancestor other than itself *)
    destruct (chain_elements j (forest w) (Element c t cl ch)) as (? & ? & ? & ? & _ & Hj & _).
    { unfold ancestry in Ej. rewrite Ej. right. apply in_or_app. right. now left. }
    simpl in Hj. destruct Hj as [<- | Hj]; [| exact Hj].
    (* j = c would put c twice on its own chain *)
    exfalso. rewrite E in Ej. apply (f_equal (@List.length node)) in Ej.
    simpl in Ej. rewrite List.length_app in Ej. simpl in Ej. lia.
Qed.

(** *** The stripper and the ancestors *)

Lemma ancestry_stripper_kept c w j :
  wf w -> ~ In (Some c) (map uid_of (tl (ancestry w j))) ->
  map uid_of (ancestry (stripper c w) j) = map uid_of (ancestry w j)
  /\ map classList_of (ancestry (stripper c w) j) = map classList_of (ancestry w j).
Proof.
  intros Hw Hc. unfold stripper.
  destruct (querySelector_span w c) eqn:E; [| now split].
  destruct (querySelector_span_deref _ _ E) as (t & cl & ch & Ec).
  rewrite (ancestry_set_textContent_kept c _ w t cl ch j Hw Ec).
  - now rewrite map_uid_of_update_replaceAll, map_classList_of_update_replaceAll.
  - intros Hj. apply Hc. now apply (below_iff_ancestor w c t cl ch j).
Qed.

Lemma ancestry_stripper_prefix c w j :
  wf w ->
  exists far, map uid_of (ancestry w j)
              = map uid_of (ancestry (stripper c w) j) ++ far.
Proof.
  intros Hw. unfold stripper.
  destruct (querySelector_span w c) eqn:E; [| exists []; now rewrite app_nil_r].
  destruct (querySelector_span_deref _ _ E) as (t & cl & ch & Ec).
  destruct (in_dec Nat.eq_dec j (elems ch)) as [Hin | Hout].
  - destruct (ancestry_set_textContent_removed c (get_textContent w c) w t cl ch j Hw Ec Hin)
      as (E1 & E2).
    rewrite E1, E2, map_app. eauto.
  - rewrite (ancestry_set_textContent_kept c _ w t cl ch j Hw Ec Hout).
    rewrite map_uid_of_update_replaceAll. exists []. now rewrite app_nil_r.
Qed.

Lemma parentElement_stripper c w j p :
  wf w -> parentElement w j = Some p ->
  p <> c \/ querySelector_span w c = false ->
  parentElement (stripper c w) j = Some p.
Proof.
  intros Hw Hp Hc. unfold stripper.
  destruct (querySelector_span w c) eqn:E; [| exact Hp].
  destruct Hc as [Hc | Hc]; [| discriminate].
  destruct (querySelector_span_deref _ _ E) as (t & cl & ch & Ec).
  destruct (in_dec Nat.eq_dec j (elems ch)) as [Hin | Hout].
  - destruct (ancestry_set_textContent_removed c (get_textContent w c) w t cl ch j Hw Ec Hin)
      as (E1 & E2).
    unfold parentElement in *. rewrite E1. rewrite E2 in Hp.
    destruct (chain j ch) as [| y [| a r]] eqn:Ey.
    + now apply chain_in in Hin.
    + exfalso. simpl in Hp. unfold deref in Ec.
      destruct (ancestry w c) as [| x rest]; [discriminate |].
      simpl in Ec. inversion Ec; subst. simpl in Hp. inversion Hp. now apply Hc.
    + exact Hp.
  - rewrite parentElement_uids in *.
    rewrite (ancestry_set_textContent_kept c _ w t cl ch j Hw Ec Hout).
    now rewrite map_uid_of_update_replaceAll.
Qed.

(** *** The stripper and the document *)

Lemma ancestry_in_document w j :
  In j (elements (document w)) ->
  exists x r, inclusiveAncestors j (document w) = x :: r
              /\ deref w j = Some x.
Proof.
  intros Hj. rewrite <- elems_single in Hj. apply chain_in in Hj.
  rewrite chain_single in Hj.
  destruct (inclusiveAncestors j (document w)) as [| x r] eqn:E; [contradiction |].
  exists x, r. split; [reflexivity |].
  unfold deref, ancestry, forest. rewrite chain_cons, E. reflexivity.
Qed.

Lemma document_stripper c w :
  document (stripper c w)
  = if querySelector_span w c
    then update c (replaceAll (get_textContent w c)) (document w)
    else document w.
Proof. unfold stripper. now destruct (querySelector_span w c). Qed.

Lemma wf_document w : wf w -> NoDup (elements (document w)).
Proof.
  unfold wf, all_elements, forest, elems. simpl. intros H.
  now apply NoDup_app_inv in H.
Qed.

(** Elements leave the document only from below a flattened element. *)
Lemma document_stripper_elements c w j :
  wf w ->
  (In j (elements (document (stripper c w))) -> In j (elements (document w)))
  /\ (In j (elements (document w)) ->
      ~ In j (elements (document (stripper c w))) ->
      querySelector_span w c = true
      /\ In (Some c) (map uid_of (tl (ancestry w j)))).
Proof.
  intros Hw. rewrite document_stripper.
  destruct (querySelector_span w c) eqn:E; [| tauto].
  destruct (querySelector_span_deref _ _ E) as (t & cl & ch & Ec).
  destruct (in_dec Nat.eq_dec c (elements (document w))) as [Hin | Hout].
  - destruct (ancestry_in_document w c Hin) as (x & rest & Ex & Edx).
    rewrite Ec in Edx. inversion Edx; subst x.
    rewrite <- chain_single in Ex.
    pose proof (wf_document w Hw) as Hnd. rewrite <- elems_single in Hnd.
    pose proof (elems_update_replaceAll c (get_textContent w c) _ t cl ch rest Hnd Ex) as HP.
    simpl map in HP. rewrite !elems_single in HP.
    split.
    + intros Hj. apply (Permutation_in j (Permutation_sym HP)).
      apply in_or_app. now left.
    + intros Hj Hnot. split; [reflexivity |].
      apply (below_iff_ancestor w c t cl ch j Hw Ec).
      apply (Permutation_in j HP) in Hj. apply in_app_or in Hj. tauto.
  - rewrite update_absent_node by assumption. tauto.
Qed.

Lemma querySelectorAll_stripper c w x :
  In x (querySelectorAll_pre_code (stripper c w)) ->
  In x (querySelectorAll_pre_code w).
Proof.
  unfold querySelectorAll_pre_code. rewrite document_stripper.
  destruct (querySelector_span w c); [| tauto].
  intros H.
  pose proof (select_pre_code_update_replaceAll false c (get_textContent w c)
                [document w] x) as H'.
  simpl in H'. rewrite !app_nil_r in H'. now apply H'.
Qed.

(** *** The resolver *)

Lemma contains_true_iff cl token : contains cl token = true <-> In token cl.
Proof.
  unfold contains. rewrite existsb_exists. split.
  - intros (x & Hx & E). apply String.eqb_eq in E. now subst.
  - intros H. exists token. split; [exact H | apply String.eqb_refl].
Qed.

Lemma contains_false_iff cl token : contains cl token = false <-> ~ In token cl.
Proof.
  rewrite <- contains_true_iff. now destruct (contains cl token).
Qed.

(** Either nothing happens, or the language class of the source is appended
    to the class list of the code element, where it was missing. *)
Lemma resolved_cases c p w :
  resolved c p w = w
  \/ exists token,
       langClass_from (ancestry w p) = Some token
       /\ String.prefix "language-" token = true
       /\ ~ In token (classes w c)
       /\ resolved c p w = classList_add c token w.
Proof.
  unfold resolved.
  destruct (langClass_from (ancestry w p)) as [token |] eqn:E; [| now left].
  destruct (contains (classes w c) token) eqn:Ec; [now left |].
  right. exists token. repeat split; [| now apply contains_false_iff].
  unfold langClass_from in E. destruct (source_of (ancestry w p)); [| discriminate].
  now apply find_some in E.
Qed.

Lemma wf_resolved c p w : wf w -> wf (resolved c p w).
Proof.
  intros Hw. destruct (resolved_cases c p w) as [-> | (t & _ & _ & _ & ->)];
    [exact Hw | now apply wf_classList_add].
Qed.

Lemma all_elements_resolved c p w : all_elements (resolved c p w) = all_elements w.
Proof.
  destruct (resolved_cases c p w) as [-> | (t & _ & _ & _ & ->)];
    [reflexivity | apply all_elements_classList_add].
Qed.

Lemma highlighted_resolved c p w : highlighted (resolved c p w) = highlighted w.
Proof.
  now destruct (resolved_cases c p w) as [-> | (t & _ & _ & _ & ->)].
Qed.

Lemma elements_document_resolved c p w :
  elements (document (resolved c p w)) = elements (document w).
Proof.
  destruct (resolved_cases c p w) as [-> | (t & _ & _ & _ & ->)]; [reflexivity |].
  simpl. pose proof (elems_update_add c t [document w]) as H.
  simpl in H. now rewrite !app_nil_r in H.
Qed.

Lemma querySelectorAll_resolved c p w :
  querySelectorAll_pre_code (resolved c p w) = querySelectorAll_pre_code w.
Proof.
  destruct (resolved_cases c p w) as [-> | (t & _ & _ & _ & ->)]; [reflexivity |].
  unfold querySelectorAll_pre_code. simpl.
  pose proof (select_pre_code_update_add false c t [document w]) as H.
  simpl in H. now rewrite !app_nil_r in H.
Qed.

Lemma ancestry_resolved_uids c p w j :
  wf w -> map uid_of (ancestry (resolved c p w) j) = map uid_of (ancestry w j).
Proof.
  intros Hw. destruct (resolved_cases c p w) as [-> | (t & _ & _ & _ & ->)];
    [reflexivity |].
  now rewrite ancestry_classList_add, map_uid_of_update_add.
Qed.

Lemma parentElement_resolved c p w j :
  wf w -> parentElement (resolved c p w) j = parentElement w j.
Proof.
  intros Hw. now rewrite !parentElement_uids, ancestry_resolved_uids.
Qed.

(** Class lists along a chain that does not pass through [c] are not
    affected. *)
Lemma ancestry_resolved_classes c p w j :
  wf w -> ~ In (Some c) (map uid_of (ancestry w j)) ->
  map classList_of (ancestry (resolved c p w) j) = map classList_of (ancestry w j).
Proof.
  intros Hw Hc. destruct (resolved_cases c p w) as [-> | (t & _ & _ & _ & ->)];
    [reflexivity |].
  rewrite ancestry_classList_add, map_map by assumption.
  apply map_ext_in. intros x Hx.
  destruct (chain_elements j (forest w) x Hx) as (k & tg & cl & ch & -> & _).
  apply (classList_of_update c _ _ k); [reflexivity |].
  intros ->. apply Hc. apply in_map_iff. now exists (Element c tg cl ch).
Qed.

Lemma deref_resolved_some c p w j x :
  wf w -> deref w j = Some x -> exists x', deref (resolved c p w) j = Some x'.
Proof.
  intros Hw E. destruct (resolved_cases c p w) as [-> | (t & _ & _ & _ & ->)];
    [now exists x |].
  rewrite deref_classList_add, E by assumption. simpl. eauto.
Qed.

Lemma classes_resolved_other c p w j :
  wf w -> j <> c -> classes (resolved c p w) j = classes w j.
Proof.
  intros Hw Hne. destruct (resolved_cases c p w) as [-> | (t & _ & _ & _ & ->)];
    [reflexivity | now apply classes_classList_add_other].
Qed.

Lemma classes_resolved_self c p w x :
  wf w -> deref w c = Some x ->
  match langClass_from (ancestry w p) with
  | Some token =>
      String.prefix "language-" token = true
      /\ classes (resolved c p w) c
         = if contains (classes w c) token then classes w c
           else classes w c ++ [token]
  | None => classes (resolved c p w) c = classes w c
  end.
Proof.
  intros Hw E. unfold resolved.
  destruct (langClass_from (ancestry w p)) as [token |] eqn:El; [| reflexivity].
  split.
  - unfold langClass_from in El. destruct (source_of (ancestry w p)); [| discriminate].
    now apply find_some in El.
  - destruct (contains (classes w c) token) eqn:Ec; [reflexivity |].
    now rewrite (classes_classList_add_same c token w x), Ec.
Qed.

Lemma localName_resolved c p w j : wf w -> localName (resolved c p w) j = localName w j.
Proof.
  intros Hw. destruct (resolved_cases c p w) as [-> | (t & _ & _ & _ & ->)];
    [reflexivity | now apply localName_classList_add].
Qed.

Lemma get_textContent_resolved c p w j :
  wf w -> get_textContent (resolved c p w) j = get_textContent w j.
Proof.
  intros Hw. destruct (resolved_cases c p w) as [-> | (t & _ & _ & _ & ->)];
    [reflexivity | now apply get_textContent_classList_add].
Qed.

Lemma querySelector_span_resolved c p w j :
  wf w -> querySelector_span (resolved c p w) j = querySelector_span w j.
Proof.
  intros Hw. destruct (resolved_cases c p w) as [-> | (t & _ & _ & _ & ->)];
    [reflexivity | now apply querySelector_span_classList_add].
Qed.

(** *** The log *)

Lemma ancestry_logged c w j : ancestry (logged c w) j = ancestry w j.
Proof. reflexivity. Qed.

Lemma deref_logged c w j : deref (logged c w) j = deref w j.
Proof. reflexivity. Qed.

Lemma wf_logged c w : wf w -> wf (logged c w).
Proof. exact (fun H => H). Qed.

(** Every stage keeps handles unique. *)
Create HintDb dom.
#[local] Hint Resolve wf_set_textContent wf_classList_add wf_stripper
  wf_resolved wf_logged : dom.

(** The resolver does not change what it resolves to. *)
Lemma langClass_from_resolved c p w :
  wf w -> parentElement w c = Some p ->
  langClass_from (ancestry (resolved c p w) p) = langClass_from (ancestry w p).
Proof.
  intros Hw Hp. apply langClass_from_ext.
  apply ancestry_resolved_classes; [exact Hw |].
  now apply ancestry_parent_fresh.
Qed.

(** ** The capability guard *)

(** C2. When [window.hljs] is absent the script completes normally without
    touching anything: the document and the detached trees are what they
    were, so every element keeps its class tokens and its text content, and
    the engine is not called. *)
Theorem capability_absent_noop :
  forall win w,
    hljs win = None ->
    exists w',
      highlight_init win w = Normal w'
      /\ document w' = document w
      /\ detached w' = detached w
      /\ highlighted w' = highlighted w
      /\ forall j, classes w' j = classes w j
                   /\ get_textContent w' j = get_textContent w j
                   /\ deref w' j = deref w j.
Proof.
  intros win w Habsent. exists w. split.
  - unfold highlight_init. now rewrite Habsent.
  - repeat split.
Qed.

Lemma capability_absent_noop_witness :
  hljs missing = None
  /\ highlight_init missing (page rouge_block) = Normal (page rouge_block).
Proof.
  split; [reflexivity |].
  destruct (capability_absent_noop missing (page rouge_block) eq_refl)
    as (w' & E & Ed & Et & Eh & _).
  rewrite E. f_equal. destruct w' as [d t h]. simpl in Ed, Et, Eh. now subst.
Defined.

(** ** The legacy markup stripper *)

Lemma nodupb_NoDup l : nodupb l = true -> NoDup l.
Proof.
  induction l as [| x l IH]; intros H; constructor.
  - apply andb_true_iff in H as [H _]. intros Hin.
    apply negb_true_iff in H.
    assert (existsb (Nat.eqb x) l = true); [| congruence].
    apply existsb_exists. exists x. split; [exact Hin | apply Nat.eqb_refl].
  - apply IH. now apply andb_true_iff in H as [_ H].
Qed.

Lemma wf_check w : nodupb (all_elements w) = true -> wf w.
Proof. apply nodupb_NoDup. Qed.

Ltac solve_wf := apply wf_check; reflexivity.

(** C1, as stated, fails: a code element whose only markup is an [em]
    contains nested markup, and neither the stripper nor the whole pass
    replaces its children by the flattened text: they stay as they are. *)
Lemma stripper_keeps_other_markup :
  let w := page emphasis_block in
  let n := Element 2 "code" [] [Text "a "; Element 3 "em" [] [Text "b"]] in
  deref w 2 = Some n
  /\ has_markup n = true
  /\ childNodes_of n <> flat (textContent n)
  /\ deref (stripper 2 w) 2 = Some n
  /\ exists w', highlight_init loaded w = Normal w' /\ deref w' 2 = Some n.
Proof.
  cbv zeta. split; [reflexivity |]. split; [reflexivity |].
  split; [cbv; discriminate |]. split; [reflexivity |].
  eexists. split; reflexivity.
Qed.

Lemma no_markup_no_element name ch :
  existsb is_element ch = false -> existsb (has_element name) ch = false.
Proof.
  induction ch as [| x ch IH]; [reflexivity |].
  simpl. intros H. apply orb_false_iff in H as [Hx Hch].
  rewrite (IH Hch), orb_false_r. now destruct x.
Qed.

Lemma stripper_no_span w code n :
  deref w code = Some n -> querySelector "span" n = false -> stripper code w = w.
Proof. intros E H. unfold stripper, querySelector_span. now rewrite E, H. Qed.

Lemma stripper_span w code t cl ch :
  wf w -> deref w code = Some (Element code t cl ch) ->
  querySelector "span" (Element code t cl ch) = true ->
  deref (stripper code w) code
  = Some (Element code t cl (flat (textContent (Element code t cl ch)))).
Proof.
  intros Hw E H. unfold stripper, querySelector_span, get_textContent.
  rewrite E, H, deref_set_textContent, E by assumption.
  simpl. now rewrite Nat.eqb_refl.
Qed.

(** C1, amended. A code element with a span below it gets the flattened
    text in place of its children; a code element with no span below it, in
    particular one without any nested markup, leaves the whole world as it
    was. *)
Theorem stripper_flattens_spans :
  forall w code n,
    wf w -> deref w code = Some n ->
    exists t cl ch,
      n = Element code t cl ch
      /\ (querySelector "span" n = true ->
          deref (stripper code w) code
          = Some (Element code t cl (flat (textContent n))))
      /\ (querySelector "span" n = false -> stripper code w = w)
      /\ (has_markup n = false -> stripper code w = w).
Proof.
  intros w code n Hw E.
  destruct (deref_element _ _ _ E) as (t & cl & ch & ->).
  exists t, cl, ch. split; [reflexivity |].
  repeat split.
  - now apply stripper_span.
  - now apply stripper_no_span.
  - intros H. apply (stripper_no_span w code _ E).
    now apply no_markup_no_element.
Qed.

Lemma stripper_flattens_spans_witness :
  wf (page rouge_block)
  /\ deref (stripper 3 (page rouge_block)) 3
     = Some (Element 3 "code" [] [Text "func f"]).
Proof.
  assert (Hw : wf (page rouge_block)) by solve_wf.
  split; [exact Hw |].
  destruct (stripper_flattens_spans (page rouge_block) 3 _ Hw eq_refl)
    as (t & cl & ch & E & H & _).
  injection E as <- <- <-. exact (H eq_refl).
Defined.

(** C4. The stripper never changes the text of a code element: whether or
    not it had nested markup, its text content afterwards is the text
    content it had, and where a span was found no markup is left. *)
Theorem stripper_preserves_text :
  forall w code n,
    wf w -> deref w code = Some n ->
    exists n',
      deref (stripper code w) code = Some n'
      /\ textContent n' = textContent n
      /\ (querySelector "span" n = true -> has_markup n' = false).
Proof.
  intros w code n Hw E.
  destruct (deref_stripper_some code w code n Hw E) as (n' & E').
  exists n'. split; [exact E' |]. split.
  - pose proof (get_textContent_stripper code w code Hw) as H.
    unfold get_textContent in H. now rewrite E, E' in H.
  - intros Hs. destruct (deref_element _ _ _ E) as (t & cl & ch & ->).
    rewrite (stripper_span w code t cl ch Hw E Hs) in E'. inversion E'; subst.
    unfold has_markup, flat. simpl. now destruct (String.eqb _ "").
Qed.

Lemma stripper_preserves_text_witness :
  wf (page rouge_block)
  /\ exists n',
       deref (stripper 3 (page rouge_block)) 3 = Some n'
       /\ textContent n' = "func f"
       /\ has_markup n' = false.
Proof.
  assert (Hw : wf (page rouge_block)) by solve_wf.
  split; [exact Hw |].
  destruct (stripper_preserves_text (page rouge_block) 3 _ Hw eq_refl)
    as (n' & E & Ht & Hm).
  exists n'. repeat split; [exact E | exact Ht | exact (Hm eq_refl)].
Defined.

(** ** The language class resolver *)

Lemma find_first {A : Type} (P : A -> bool) l x :
  find P l = Some x ->
  exists before after,
    l = before ++ x :: after /\ P x = true
    /\ (forall y, In y before -> P y = false).
Proof.
  induction l as [| a l IH]; [discriminate |].
  simpl. destruct (P a) eqn:Ea.
  - intros [= ->]. exists [], l. repeat split; [exact Ea | intros y []].
  - intros H. destruct (IH H) as (before & after & -> & Hx & Hb).
    exists (a :: before), after. repeat split; [exact Hx |].
    intros y [<- | Hy]; [exact Ea | now apply Hb].
Qed.

Lemma find_none_all {A : Type} (P : A -> bool) l :
  find P l = None -> forall y, In y l -> P y = false.
Proof. intros H y Hy. now apply (find_none P l H). Qed.

Lemma find_split {A : Type} (P : A -> bool) before x after :
  (forall y, In y before -> P y = false) -> P x = true ->
  find P (before ++ x :: after) = Some x.
Proof.
  intros Hb Hx. induction before as [| a before IH]; simpl.
  - now rewrite Hx.
  - rewrite (Hb a) by now left. apply IH. intros y Hy. apply Hb. now right.
Qed.

Lemma find_all_false {A : Type} (P : A -> bool) l :
  (forall y, In y l -> P y = false) -> find P l = None.
Proof.
  induction l as [| a l IH]; [reflexivity |].
  intros H. simpl. rewrite (H a) by now left. apply IH.
  intros y Hy. apply H. now right.
Qed.

(** The source found by the script is the class source of the
    specification, and there is always one. *)
Lemma class_source_exists w p x :
  deref w p = Some x ->
  exists k a, class_source w p k /\ source_of (ancestry w p) = Some a
              /\ uid_of a = Some k.
Proof.
  intros E. unfold source_of.
  destruct (find (has_class "highlighter-rouge") (ancestry w p)) as [a |] eqn:Ef.
  - destruct (find_first _ _ _ Ef) as (near & far & Es & Ha & Hn).
    destruct (chain_elements p (forest w) a) as (k & t & cl & ch & -> & _).
    { unfold ancestry in Es. rewrite Es. apply in_or_app. right. now left. }
    exists k, (Element k t cl ch). repeat split.
    now apply (source_wrapper w p near (Element k t cl ch) far k).
  - exists p, x. repeat split.
    + apply source_container. now apply find_none_all.
    + exact E.
    + destruct (deref_element _ _ _ E) as (t & cl & ch & ->). reflexivity.
Qed.

Lemma class_source_classes w p k :
  wf w -> class_source w p k ->
  match source_of (ancestry w p) with
  | Some a => classList_of a = classes w k
  | None => classes w k = []
  end.
Proof.
  intros Hw [near a far k' Es Hn Ha Hk | Hnone].
  - unfold source_of. rewrite Es, (find_split _ near a far Hn Ha).
    unfold classes.
    now rewrite (ancestry_deref w k' a far (ancestry_suffix w p near a far k' Hw Es Hk)).
  - unfold source_of, classes, deref. rewrite (find_all_false _ _ Hnone).
    now destruct (ancestry w p).
Qed.

Lemma first_language_token_find cl sel :
  first_language_token cl sel -> find (String.prefix "language-") cl = sel.
Proof.
  intros [before token after Hb Ht | cl' Hnone].
  - now apply find_split.
  - now apply find_all_false.
Qed.

Lemma first_language_token_exists cl :
  first_language_token cl (find (String.prefix "language-") cl).
Proof.
  destruct (find (String.prefix "language-") cl) as [token |] eqn:E.
  - destruct (find_first _ _ _ E) as (before & after & -> & Ht & Hb).
    now apply first_token.
  - apply no_token. now apply find_none_all.
Qed.

Lemma langClass_from_source w p k sel :
  wf w -> class_source w p k -> first_language_token (classes w k) sel ->
  langClass_from (ancestry w p) = sel.
Proof.
  intros Hw Hs Ht. apply first_language_token_find in Ht.
  unfold langClass_from.
  pose proof (class_source_classes w p k Hw Hs) as Hc.
  destruct (source_of (ancestry w p)) as [a |].
  - now rewrite Hc.
  - rewrite Hc in Ht. simpl in Ht. congruence.
Qed.

(** C3. For a code element with container [pre]: a class source exists, it
    is the nearest inclusive ancestor of the container carrying the marker
    class or else the container, and it offers the first of its tokens that
    starts with [language-], if any.  The resolver completes normally; with
    no such token the world is unchanged; with such a token already on the
    code element the world is unchanged; otherwise the token is appended to
    the class list of the code element, and no other class list changes. *)
Theorem resolver_selects_first_language_class :
  forall w code pre,
    wf w -> parentElement w code = Some pre ->
    (exists src sel,
        class_source w pre src /\ first_language_token (classes w src) sel)
    /\ forall src sel,
        class_source w pre src ->
        first_language_token (classes w src) sel ->
        exists w',
          resolver code (Some pre) w = Normal w'
          /\ (forall j, j <> code -> classes w' j = classes w j)
          /\ match sel with
             | None => w' = w
             | Some token =>
                 (In token (classes w code) -> w' = w)
                 /\ (~ In token (classes w code) ->
                     classes w' code = classes w code ++ [token])
             end.
Proof.
  intros w code pre Hw Hp.
  destruct (ancestry_parent w code pre Hw Hp) as (x & Ex & Ea).
  assert (Hpre : exists y, deref w pre = Some y).
  { unfold parentElement in Hp. rewrite Ea in Hp. unfold deref.
    destruct (ancestry w pre) as [| y r]; [discriminate | now exists y]. }
  destruct Hpre as (y & Ey).
  split.
  - destruct (class_source_exists w pre y Ey) as (k & a & Hs & _).
    exists k, (find (String.prefix "language-") (classes w k)).
    split; [exact Hs | apply first_language_token_exists].
  - intros src sel Hs Ht.
    exists (resolved code pre w).
    split; [now apply resolver_resolved |].
    split; [intros j Hj; now apply classes_resolved_other |].
    pose proof (langClass_from_source w pre src sel Hw Hs Ht) as El.
    pose proof (classes_resolved_self code pre w x Hw Ex) as Hc.
    unfold resolved in *. rewrite El in *.
    destruct sel as [token |]; [| reflexivity].
    destruct Hc as [_ Hc]. split.
    + intros Hin. apply contains_true_iff in Hin. now rewrite Hin.
    + intros Hout. apply contains_false_iff in Hout. now rewrite Hout in *.
Qed.

Lemma resolver_selects_first_language_class_witness :
  wf (page rouge_block)
  /\ parentElement (page rouge_block) 3 = Some 2
  /\ exists w',
       resolver 3 (Some 2) (page rouge_block) = Normal w'
       /\ classes w' 3 = ["language-go"].
Proof.
  assert (Hw : wf (page rouge_block)) by solve_wf.
  split; [exact Hw |]. split; [reflexivity |].
  destruct (resolver_selects_first_language_class (page rouge_block) 3 2 Hw eq_refl)
    as [_ H].
  destruct (H 1 (Some "language-go")) as (w' & E & _ & _ & Hadd).
  - apply (source_wrapper _ 2 [Element 2 "pre" ["highlight"]
             [Element 3 "code" []
                [Element 4 "span" ["k"] [Text "func"]; Text " ";
                 Element 5 "span" ["n"] [Text "f"]]]]
             rouge_block [] 1); try reflexivity.
    intros b [<- | []]. reflexivity.
  - apply (first_token [] "language-go" ["highlighter-rouge"]); [intros u [] | reflexivity].
  - exists w'. split; [exact E |]. apply Hadd. intros [].
Defined.

(** C7. Running the resolver a second time changes nothing: the second run
    returns the world the first run produced.  The token it resolves to is
    on the code element once if it was missing before, and as often as it
    was before otherwise, so a class list without repetition stays so. *)
Theorem resolver_idempotent :
  forall w code pre,
    wf w -> parentElement w code = Some pre ->
    exists w1,
      resolver code (Some pre) w = Normal w1
      /\ resolver code (Some pre) w1 = Normal w1
      /\ forall token,
           langClass_of w (Some pre) = Normal (Some token) ->
           (In token (classes w code) -> w1 = w)
           /\ (~ In token (classes w code) ->
               classes w1 code = classes w code ++ [token])
           /\ count_occ string_dec (classes w1 code) token
              = Nat.max 1 (count_occ string_dec (classes w code) token).
Proof.
  intros w code pre Hw Hp.
  destruct (ancestry_parent w code pre Hw Hp) as (x & Ex & _).
  exists (resolved code pre w).
  split; [now apply resolver_resolved |].
  pose proof (wf_resolved code pre w Hw) as Hw1.
  pose proof (langClass_from_resolved code pre w Hw Hp) as Estable.
  pose proof (classes_resolved_self code pre w x Hw Ex) as Hc.
  split.
  - rewrite resolver_resolved by assumption. f_equal.
    unfold resolved at 1. rewrite Estable.
    destruct (langClass_from (ancestry w pre)) as [token |] eqn:El; [| reflexivity].
    destruct Hc as [_ Hc]. rewrite Hc.
    destruct (contains (classes w code) token) eqn:Ec; [now rewrite Ec |].
    assert (H : contains (classes w code ++ [token]) token = true).
    { apply contains_true_iff. apply in_or_app. right. now left. }
    now rewrite H.
  - intros token Hl. rewrite langClass_of_ancestry in Hl by assumption.
    injection Hl as Hl. rewrite Hl in Hc. destruct Hc as [_ Hc].
    unfold resolved. rewrite Hl.
    repeat split.
    + intros Hin. apply contains_true_iff in Hin. now rewrite Hin.
    + intros Hout. apply contains_false_iff in Hout.
      unfold resolved in Hc. rewrite Hl, Hout in Hc. now rewrite Hout.
    + unfold resolved in Hc. rewrite Hl in Hc.
      destruct (contains (classes w code) token) eqn:Ec.
      * apply contains_true_iff in Ec.
        apply (count_occ_In string_dec) in Ec. lia.
      * rewrite Hc, count_occ_app. simpl.
        apply contains_false_iff in Ec.
        apply (count_occ_not_In string_dec) in Ec. rewrite Ec.
        destruct (string_dec token token); [reflexivity | contradiction].
Qed.

Lemma resolver_idempotent_witness :
  wf (page rouge_block)
  /\ parentElement (page rouge_block) 3 = Some 2
  /\ exists w1,
       resolver 3 (Some 2) (page rouge_block) = Normal w1
       /\ resolver 3 (Some 2) w1 = Normal w1
       /\ count_occ string_dec (classes w1 3) "language-go" = 1.
Proof.
  assert (Hw : wf (page rouge_block)) by solve_wf.
  split; [exact Hw |]. split; [reflexivity |].
  destruct (resolver_idempotent (page rouge_block) 3 2 Hw eq_refl)
    as (w1 & E1 & E2 & H).
  exists w1. split; [exact E1 |]. split; [exact E2 |].
  destruct (H "language-go" eq_refl) as (_ & _ & Hcount). exact Hcount.
Defined.

(** ** The loop *)

Lemma callback_total win e c w :
  hljs win = Some e -> exists w', callback win c w = Normal w'.
Proof.
  intros He. unfold callback.
  destruct (parentElement w c) as [p |]; [| now exists w].
  unfold resolver, langClass_of, closest, highlightElement. simpl bind.
  set (wrapper := match find _ _ with Some a => uid_of a | None => None end).
  destruct wrapper as [k |]; simpl;
    (destruct (find (String.prefix "language-") _) as [token |]; simpl;
     [destruct (classList_contains _ c token); simpl |]);
    rewrite He; eauto.
Qed.

Lemma forEach_total win e l w :
  hljs win = Some e -> exists w', forEach (callback win) l w = Normal w'.
Proof.
  intros He. revert w. induction l as [| c l IH]; intros w; simpl.
  - now exists w.
  - destruct (callback_total win e c w He) as (w1 & ->). simpl. apply IH.
Qed.

Lemma highlight_init_total win w : exists w', highlight_init win w = Normal w'.
Proof.
  unfold highlight_init. destruct (hljs win) as [e |] eqn:He.
  - now apply (forEach_total win e).
  - now exists w.
Qed.

Lemma callback_logs c w p :
  wf w -> parentElement w c = Some p ->
  exists n,
    deref (resolved c p (stripper c w)) c = Some n
    /\ highlighted (logged c (resolved c p (stripper c w))) = highlighted w ++ [n].
Proof.
  intros Hw Hp.
  destruct (ancestry_parent w c p Hw Hp) as (x & Ex & _).
  destruct (deref_stripper_some c w c x Hw Ex) as (x1 & E1).
  destruct (deref_resolved_some c p (stripper c w) c x1 (wf_stripper c w Hw) E1)
    as (n & En).
  exists n. split; [exact En |].
  unfold logged. simpl. now rewrite En, highlighted_resolved, highlighted_stripper.
Qed.

(** C6. The script never throws, whatever the window and the page.  A code
    element that has no parent element when its turn comes is skipped: the
    callback returns the world unchanged, without a call of the engine, and
    the loop goes on with the remaining elements.  An element that has a
    parent is processed, and passed to the engine once. *)
Theorem malformed_block_skipped :
  (forall win w, exists w', highlight_init win w = Normal w')
  /\ (forall win w code rest,
        parentElement w code = None ->
        callback win code w = Normal w
        /\ forEach (callback win) (code :: rest) w
           = forEach (callback win) rest w)
  /\ (forall w code pre,
        wf w -> parentElement w code = Some pre ->
        exists w' n,
          callback loaded code w = Normal w'
          /\ uid_of n = Some code
          /\ highlighted w' = highlighted w ++ [n]).
Proof.
  split; [exact highlight_init_total |]. split.
  - intros win w code rest Hp. split; [now apply callback_skip |].
    simpl. now rewrite callback_skip.
  - intros w code pre Hw Hp.
    destruct (callback_logs code w pre Hw Hp) as (n & En & Hl).
    exists (logged code (resolved code pre (stripper code w))), n.
    split; [now apply callback_stages |]. split; [| exact Hl].
    destruct (deref_element _ _ _ En) as (t & cl & ch & ->). reflexivity.
Qed.

Lemma malformed_block_skipped_witness :
  callback loaded 2 (page nested_block) = Normal nested_after_outer
  /\ parentElement nested_after_outer 4 = None
  /\ callback loaded 4 nested_after_outer = Normal nested_after_outer
  /\ highlight_init loaded (page nested_block) = Normal nested_after_outer.
Proof.
  destruct malformed_block_skipped as (_ & Hskip & _).
  split; [reflexivity |]. split; [reflexivity |].
  destruct (Hskip loaded nested_after_outer 4 [] eq_refl) as [E _].
  split; [exact E | reflexivity].
Defined.

(** ** One turn of the loop *)

Lemma callback_step c w : wf w -> callback loaded c w = Normal (step c w).
Proof.
  intros Hw. unfold step. destruct (parentElement w c) as [p |] eqn:Hp.
  - now apply callback_stages.
  - now apply callback_skip.
Qed.

Lemma wf_step c w : wf w -> wf (step c w).
Proof.
  intros Hw. unfold step. destruct (parentElement w c) as [p |]; auto with dom.
Qed.

Lemma wf_run l w : wf w -> wf (run l w).
Proof.
  revert w. induction l as [| c l IH]; intros w Hw; [exact Hw |].
  apply IH. now apply wf_step.
Qed.

#[local] Hint Resolve wf_step wf_run : dom.

Lemma forEach_run l w :
  wf w -> forEach (callback loaded) l w = Normal (run l w).
Proof.
  revert w. induction l as [| c l IH]; intros w Hw; [reflexivity |].
  simpl forEach. rewrite callback_step by assumption. simpl.
  apply IH. now apply wf_step.
Qed.

Lemma highlight_init_run w :
  wf w -> highlight_init loaded w = Normal (run (querySelectorAll_pre_code w) w).
Proof. intros Hw. now apply forEach_run. Qed.

Lemma run_app l l' w : run (l ++ l') w = run l' (run l w).
Proof. apply fold_left_app. Qed.

Lemma classes_logged c w j : classes (logged c w) j = classes w j.
Proof. reflexivity. Qed.

Lemma classes_step_other c w j : wf w -> j <> c -> classes (step c w) j = classes w j.
Proof.
  intros Hw Hne. unfold step. destruct (parentElement w c) as [p |]; [| reflexivity].
  rewrite classes_logged, classes_resolved_other, classes_stripper;
    auto with dom.
Qed.

Lemma classes_step_self c w :
  wf w ->
  classes (step c w) c = classes w c
  \/ exists token,
       String.prefix "language-" token = true
       /\ ~ In token (classes w c)
       /\ classes (step c w) c = classes w c ++ [token].
Proof.
  intros Hw. unfold step. destruct (parentElement w c) as [p |] eqn:Hp; [| now left].
  destruct (ancestry_parent w c p Hw Hp) as (x & Ex & _).
  destruct (deref_stripper_some c w c x Hw Ex) as (x1 & E1).
  pose proof (classes_resolved_self c p (stripper c w) x1 (wf_stripper c w Hw) E1) as H.
  rewrite classes_logged.
  destruct (langClass_from (ancestry (stripper c w) p)) as [token |].
  - destruct H as [Hpre H]. rewrite H, classes_stripper by assumption.
    destruct (contains (classes w c) token) eqn:Ec; [now left |].
    right. exists token. repeat split; [exact Hpre |].
    now apply contains_false_iff.
  - left. rewrite H. now apply classes_stripper.
Qed.

Lemma localName_step c w j : wf w -> localName (step c w) j = localName w j.
Proof.
  intros Hw. unfold step. destruct (parentElement w c) as [p |]; [| reflexivity].
  change (localName (logged c ?w') j) with (localName w' j).
  rewrite localName_resolved, localName_stripper; auto with dom.
Qed.

Lemma get_textContent_step c w j :
  wf w -> get_textContent (step c w) j = get_textContent w j.
Proof.
  intros Hw. unfold step. destruct (parentElement w c) as [p |]; [| reflexivity].
  change (get_textContent (logged c ?w') j) with (get_textContent w' j).
  rewrite get_textContent_resolved, get_textContent_stripper; auto with dom.
Qed.

Lemma all_elements_stripper c w :
  wf w -> Permutation (all_elements w) (all_elements (stripper c w)).
Proof.
  intros Hw. unfold stripper. destruct (querySelector_span w c) eqn:E; [| reflexivity].
  destruct (querySelector_span_deref _ _ E) as (t & cl & ch & Ec).
  now apply (all_elements_set_textContent c _ w t cl ch).
Qed.

Lemma all_elements_step c w :
  wf w -> Permutation (all_elements w) (all_elements (step c w)).
Proof.
  intros Hw. unfold step. destruct (parentElement w c) as [p |]; [| reflexivity].
  change (all_elements (logged c ?w')) with (all_elements w').
  rewrite all_elements_resolved. now apply all_elements_stripper.
Qed.

Lemma document_step_elements c w j :
  wf w ->
  (In j (elements (document (step c w))) -> In j (elements (document w)))
  /\ (In j (elements (document w)) ->
      ~ In j (elements (document (step c w))) ->
      querySelector_span w c = true
      /\ In (Some c) (map uid_of (tl (ancestry w j)))).
Proof.
  intros Hw. unfold step. destruct (parentElement w c) as [p |]; [| tauto].
  change (document (logged c ?w')) with (document w').
  rewrite elements_document_resolved. now apply document_stripper_elements.
Qed.

Lemma querySelector_span_step c w j :
  wf w -> querySelector_span (step c w) j = true -> querySelector_span w j = true.
Proof.
  intros Hw. unfold step. destruct (parentElement w c) as [p |]; [| tauto].
  change (querySelector_span (logged c ?w') j) with (querySelector_span w' j).
  rewrite querySelector_span_resolved by auto with dom.
  now apply querySelector_span_stripper.
Qed.

Lemma ancestry_step_prefix c w j :
  wf w ->
  exists far, map uid_of (ancestry w j) = map uid_of (ancestry (step c w) j) ++ far.
Proof.
  intros Hw. unfold step.
  destruct (parentElement w c) as [p |]; [| exists []; now rewrite app_nil_r].
  rewrite ancestry_logged, ancestry_resolved_uids by auto with dom.
  now apply ancestry_stripper_prefix.
Qed.

Lemma parentElement_step c w j p :
  wf w -> parentElement w j = Some p ->
  p <> c \/ querySelector_span w c = false ->
  parentElement (step c w) j = Some p.
Proof.
  intros Hw Hp Hc. unfold step. destruct (parentElement w c) as [q |]; [| exact Hp].
  change (parentElement (logged c ?w') j) with (parentElement w' j).
  rewrite parentElement_resolved by auto with dom.
  now apply parentElement_stripper.
Qed.

Lemma querySelectorAll_step c w x :
  In x (querySelectorAll_pre_code (step c w)) -> In x (querySelectorAll_pre_code w).
Proof.
  unfold step. destruct (parentElement w c) as [p |]; [| tauto].
  change (querySelectorAll_pre_code (logged c ?w'))
    with (querySelectorAll_pre_code w').
  rewrite querySelectorAll_resolved. apply querySelectorAll_stripper.
Qed.

(** A chain that does not pass through [c] keeps its handles and its class
    lists. *)
Lemma ancestry_step_kept c w j :
  wf w -> ~ In (Some c) (map uid_of (ancestry w j)) ->
  map uid_of (ancestry (step c w) j) = map uid_of (ancestry w j)
  /\ map classList_of (ancestry (step c w) j) = map classList_of (ancestry w j).
Proof.
  intros Hw Hc. unfold step. destruct (parentElement w c) as [p |]; [| now split].
  rewrite ancestry_logged.
  assert (Htl : ~ In (Some c) (map uid_of (tl (ancestry w j)))).
  { intros H. apply Hc. destruct (ancestry w j); [exact H | now right]. }
  destruct (ancestry_stripper_kept c w j Hw Htl) as [E1 E2].
  rewrite ancestry_resolved_uids, ancestry_resolved_classes;
    auto with dom.
  now rewrite E1.
Qed.

(** ** The whole loop *)

Lemma select_pre_code_NoDup b F :
  NoDup (elems F) -> NoDup (flat_map (select_pre_code b) F).
Proof.
  revert b.
  induction F as [| d F IH | d F IH | i t cl ch F IHch IHF] using forest_ind;
    intros b HF; try (now constructor); try (now apply IH).
  pose proof HF as HF'. apply NoDup_elems_cons in HF' as (Hi & HiF & Hch & HFF & Hd).
  rewrite flat_map_cons_eq. simpl select_pre_code.
  apply NoDup_app.
  - apply NoDup_app.
    + destruct (b && String.eqb t "code"); repeat constructor. intros [].
    + now apply IHch.
    + intros a Ha Hin. apply select_pre_code_elements in Hin.
      destruct (b && String.eqb t "code"); [| destruct Ha].
      destruct Ha as [<- | []]. contradiction.
  - now apply IHF.
  - intros a Ha Hin. apply select_pre_code_elements in Hin.
    apply in_app_or in Ha as [Ha | Ha].
    + destruct (b && String.eqb t "code"); [| destruct Ha].
      destruct Ha as [<- | []]. contradiction.
    + apply select_pre_code_elements in Ha. now apply (Hd a).
Qed.

Lemma querySelectorAll_NoDup w : wf w -> NoDup (querySelectorAll_pre_code w).
Proof.
  intros Hw. apply wf_document in Hw. rewrite <- elems_single in Hw.
  pose proof (select_pre_code_NoDup false [document w] Hw) as H.
  simpl in H. now rewrite app_nil_r in H.
Qed.

(** Class lists after the loop: untouched outside the list of handles, and
    extended by at most one language class inside it. *)
Lemma classes_run l w j :
  wf w -> NoDup l ->
  (~ In j l -> classes (run l w) j = classes w j)
  /\ (In j l ->
      classes (run l w) j = classes w j
      \/ exists token,
           String.prefix "language-" token = true
           /\ ~ In token (classes w j)
           /\ classes (run l w) j = classes w j ++ [token]).
Proof.
  revert w. induction l as [| c l IH]; intros w Hw Hl.
  - split; [reflexivity | intros []].
  - inversion Hl as [| ? ? Hc Hl']; subst.
    destruct (IH (step c w) (wf_step c w Hw) Hl') as [IH1 IH2].
    change (run (c :: l) w) with (run l (step c w)).
    split.
    + intros Hj. rewrite IH1 by (intros H; apply Hj; now right).
      apply classes_step_other; [exact Hw |]. intros ->. apply Hj. now left.
    + intros [<- | Hj].
      * rewrite IH1 by assumption. now apply classes_step_self.
      * assert (Hne : j <> c) by (intros ->; contradiction).
        rewrite <- (classes_step_other c w j Hw Hne). now apply IH2.
Qed.

Lemma views_run l w j :
  wf w ->
  localName (run l w) j = localName w j
  /\ get_textContent (run l w) j = get_textContent w j.
Proof.
  revert w. induction l as [| c l IH]; intros w Hw; [now split |].
  change (run (c :: l) w) with (run l (step c w)).
  destruct (IH (step c w) (wf_step c w Hw)) as [-> ->].
  split; [now apply localName_step | now apply get_textContent_step].
Qed.

Lemma all_elements_run l w :
  wf w -> Permutation (all_elements w) (all_elements (run l w)).
Proof.
  revert w. induction l as [| c l IH]; intros w Hw; [reflexivity |].
  change (run (c :: l) w) with (run l (step c w)).
  transitivity (all_elements (step c w)).
  - now apply all_elements_step.
  - apply IH. now apply wf_step.
Qed.

Lemma document_run_incl l w j :
  wf w -> In j (elements (document (run l w))) -> In j (elements (document w)).
Proof.
  revert w. induction l as [| c l IH]; intros w Hw Hj; [exact Hj |].
  change (run (c :: l) w) with (run l (step c w)) in Hj.
  apply IH in Hj; [| now apply wf_step].
  now apply (document_step_elements c w j Hw).
Qed.

Lemma map_tl_eq {A B : Type} (f : A -> B) l : map f (tl l) = tl (map f l).
Proof. now destruct l. Qed.

Lemma tl_prefix {A : Type} (l l' far : list A) x :
  l = l' ++ far -> In x (tl l') -> In x (tl l).
Proof.
  intros -> H. destruct l' as [| a l']; [destruct H |].
  simpl in *. apply in_or_app. now left.
Qed.

(** An element that has left the document lies below a code element of the
    list that had a span below it. *)
Lemma document_run_left l w j :
  wf w ->
  In j (elements (document w)) -> ~ In j (elements (document (run l w))) ->
  exists c,
    In c l /\ querySelector_span w c = true
    /\ In (Some c) (map uid_of (tl (ancestry w j))).
Proof.
  revert w. induction l as [| c l IH]; intros w Hw Hj Hnot; [contradiction |].
  change (run (c :: l) w) with (run l (step c w)) in Hnot.
  destruct (in_dec Nat.eq_dec j (elements (document (step c w)))) as [Hin | Hout].
  - destruct (IH (step c w) (wf_step c w Hw) Hin Hnot) as (c' & Hc' & Hs & Ha).
    exists c'. split; [now right |]. split.
    + now apply (querySelector_span_step c w c').
    + destruct (ancestry_step_prefix c w j Hw) as (far & E).
      rewrite map_tl_eq in *. now apply (tl_prefix _ _ far _ E).
  - destruct (document_step_elements c w j Hw) as [_ H].
    destruct (H Hj Hout) as [Hs Ha]. exists c. split; [now left | now split].
Qed.

(** C10. After the pass the class list of every element is the one it had,
    possibly followed by one token that starts with [language-] and that it
    did not have; only the enumerated code elements can gain one.  No token
    is ever removed. *)
Theorem classes_only_grow :
  forall w,
    wf w ->
    exists w',
      highlight_init loaded w = Normal w'
      /\ forall j,
           classes w' j = classes w j
           \/ (In j (querySelectorAll_pre_code w)
               /\ exists token,
                    String.prefix "language-" token = true
                    /\ ~ In token (classes w j)
                    /\ classes w' j = classes w j ++ [token]).
Proof.
  intros w Hw. exists (run (querySelectorAll_pre_code w) w).
  split; [now apply highlight_init_run |].
  intros j.
  destruct (classes_run (querySelectorAll_pre_code w) w j Hw
              (querySelectorAll_NoDup w Hw)) as [Hout Hin].
  destruct (in_dec Nat.eq_dec j (querySelectorAll_pre_code w)) as [Hj | Hj].
  - destruct (Hin Hj) as [H | H]; [now left | right; now split].
  - left. now apply Hout.
Qed.

Lemma classes_only_grow_witness :
  wf (page rouge_block)
  /\ exists w',
       highlight_init loaded (page rouge_block) = Normal w'
       /\ classes w' 3 = ["language-go"]
       /\ classes w' 1 = ["language-go"; "highlighter-rouge"].
Proof.
  assert (Hw : wf (page rouge_block)) by solve_wf.
  split; [exact Hw |].
  destruct (classes_only_grow (page rouge_block) Hw) as (w' & E & H).
  exists w'. split; [exact E |].
  injection E as <-. split; reflexivity.
Defined.

(** C9, as stated, fails: flattening a code element removes the elements
    below it from the document.  On the Rouge block the span with handle 4
    is an element of the document before the pass and not after it. *)
Lemma flattening_removes_elements :
  exists w',
    highlight_init loaded (page rouge_block) = Normal w'
    /\ In 4 (elements (document (page rouge_block)))
    /\ ~ In 4 (elements (document w')).
Proof.
  eexists. split; [reflexivity |]. split.
  - simpl. tauto.
  - simpl. intros [H | [H | [H | []]]]; discriminate.
Qed.

(** C9, amended.  The pass changes the class list of enumerated code
    elements only; every element keeps its local name and its text content;
    the elements of the world are the same before and after (none is
    created, none is destroyed); no element enters the document, and an
    element leaves the document only when it lies below an enumerated code
    element that had a span below it. *)
Theorem pass_frame :
  forall w,
    wf w ->
    exists w',
      highlight_init loaded w = Normal w'
      /\ (forall j, ~ In j (querySelectorAll_pre_code w) ->
                    classes w' j = classes w j)
      /\ (forall j, localName w' j = localName w j
                    /\ get_textContent w' j = get_textContent w j)
      /\ Permutation (all_elements w) (all_elements w')
      /\ (forall j, In j (elements (document w')) ->
                    In j (elements (document w)))
      /\ (forall j, In j (elements (document w)) ->
                    ~ In j (elements (document w')) ->
                    exists code,
                      In code (querySelectorAll_pre_code w)
                      /\ querySelector_span w code = true
                      /\ In (Some code) (map uid_of (tl (ancestry w j)))).
Proof.
  intros w Hw. exists (run (querySelectorAll_pre_code w) w).
  split; [now apply highlight_init_run |].
  repeat split.
  - intros j Hj.
    now apply (classes_run (querySelectorAll_pre_code w) w j Hw
                 (querySelectorAll_NoDup w Hw)).
  - now apply views_run.
  - now apply views_run.
  - now apply all_elements_run.
  - intros j. now apply document_run_incl.
  - intros j. now apply document_run_left.
Qed.

Lemma pass_frame_witness :
  wf (page rouge_block)
  /\ exists w',
       highlight_init loaded (page rouge_block) = Normal w'
       /\ classes w' 2 = ["highlight"]
       /\ get_textContent w' 1 = "func f"
       /\ (forall j, In j (elements (document w')) -> In j [1; 2; 3; 4; 5]).
Proof.
  assert (Hw : wf (page rouge_block)) by solve_wf.
  split; [exact Hw |].
  destruct (pass_frame (page rouge_block) Hw)
    as (w' & E & Hcl & Hview & _ & Hdoc & _).
  exists w'. split; [exact E |].
  split; [| split].
  - rewrite Hcl; [reflexivity |]. simpl. intros [H | []]. discriminate.
  - now rewrite (proj2 (Hview 1)).
  - exact Hdoc.
Defined.

(** ** The calls of the engine *)

Lemma resolved_settled c p w :
  match langClass_from (ancestry w p) with
  | Some token => In token (classes w c)
  | None => True
  end ->
  resolved c p w = w.
Proof.
  unfold resolved. destruct (langClass_from (ancestry w p)) as [token |]; [| reflexivity].
  intros H. apply contains_true_iff in H. now rewrite H.
Qed.

Lemma settled_after_resolved c p w :
  wf w -> parentElement w c = Some p ->
  match langClass_from (ancestry (resolved c p w) p) with
  | Some token => In token (classes (resolved c p w) c)
  | None => True
  end.
Proof.
  intros Hw Hp. rewrite langClass_from_resolved by assumption.
  destruct (ancestry_parent w c p Hw Hp) as (x & Ex & _).
  pose proof (classes_resolved_self c p w x Hw Ex) as H.
  destruct (langClass_from (ancestry w p)) as [token |]; [| exact I].
  destruct H as [_ ->].
  destruct (contains (classes w c) token) eqn:E.
  - now apply contains_true_iff.
  - apply in_or_app. right. now left.
Qed.

Lemma parent_not_self w c p : wf w -> parentElement w c = Some p -> p <> c.
Proof.
  intros Hw Hp ->. apply (ancestry_parent_fresh w c c Hw Hp).
  destruct (ancestry_parent w c c Hw Hp) as (x & Ex & E).
  destruct (deref_element _ _ _ Ex) as (t & cl & ch & ->).
  unfold deref in Ex. destruct (ancestry w c) as [| y r]; [discriminate |].
  simpl in Ex. inversion Ex; subst. now left.
Qed.

(** After its own turn a code element that had a parent is settled. *)
Lemma settled_step_self c w p :
  wf w -> parentElement w c = Some p -> settled (step c w) c.
Proof.
  intros Hw Hp.
  pose proof (parent_not_self w c p Hw Hp) as Hne.
  pose proof (parentElement_stripper c w c p Hw Hp (or_introl Hne)) as Hp1.
  pose proof (wf_stripper c w Hw) as Hw1.
  unfold step. rewrite Hp. split.
  - change (querySelector_span (logged c ?w') c) with (querySelector_span w' c).
    rewrite querySelector_span_resolved by assumption.
    now apply querySelector_span_stripper_self.
  - exists p. split.
    + change (parentElement (logged c ?w') c) with (parentElement w' c).
      now rewrite parentElement_resolved.
    + exact (settled_after_resolved c p (stripper c w) Hw1 Hp1).
Qed.

Lemma step_settled c w :
  settled w c -> step c w = logged c w.
Proof.
  intros (Hs & p & Hp & Hl). unfold step. rewrite Hp.
  unfold stripper. rewrite Hs. now rewrite resolved_settled.
Qed.

(** What the engine receives: the element after its turn, with no span
    below it, and with nothing left for the resolver to do. *)
Lemma step_snapshot c w p :
  wf w -> parentElement w c = Some p ->
  exists n,
    highlighted (step c w) = highlighted w ++ [n]
    /\ deref (step c w) c = Some n
    /\ querySelector "span" n = false
    /\ resolver c (Some p) (step c w) = Normal (step c w).
Proof.
  intros Hw Hp.
  destruct (callback_logs c w p Hw Hp) as (n & En & Hl).
  pose proof (settled_step_self c w p Hw Hp) as (Hs & q & Hq & Hcl).
  assert (Eq : q = p).
  { pose proof (parent_not_self w c p Hw Hp) as Hne.
    pose proof (parentElement_step c w c p Hw Hp (or_introl Hne)) as H. congruence. }
  subst q.
  exists n. unfold step in *. rewrite Hp in *.
  split; [exact Hl |]. split; [exact En |]. split.
  - unfold querySelector_span in Hs. rewrite deref_logged, En in Hs. exact Hs.
  - rewrite resolver_resolved.
    + f_equal. now apply resolved_settled.
    + apply wf_logged, wf_resolved, wf_stripper, Hw.
Qed.

Lemma subsequence_in {A : Type} (l l' : list A) x :
  subsequence l l' -> In x l -> In x l'.
Proof.
  induction 1 as [| y l l' _ IH | y l l' _ IH]; intros Hx.
  - exact Hx.
  - right. now apply IH.
  - destruct Hx as [-> | Hx]; [now left | right; now apply IH].
Qed.

(** The loop calls the engine on some of the handles of its list, in the
    order of the list. *)
Lemma highlighted_run l w :
  wf w ->
  exists ns,
    highlighted (run l w) = highlighted w ++ ns
    /\ subsequence (map uid_of ns) (map Some l).
Proof.
  revert w. induction l as [| c l IH]; intros w Hw.
  - exists []. split; [now rewrite app_nil_r | constructor].
  - change (run (c :: l) w) with (run l (step c w)).
    destruct (IH (step c w) (wf_step c w Hw)) as (ns & E & Hsub).
    destruct (parentElement w c) as [p |] eqn:Hp.
    + destruct (step_snapshot c w p Hw Hp) as (n & El & En & _).
      exists (n :: ns). rewrite E, El, <- app_assoc. split; [reflexivity |].
      destruct (deref_element _ _ _ En) as (t & cl & ch & ->).
      simpl. now constructor.
    + assert (Es : step c w = w) by (unfold step; now rewrite Hp).
      rewrite Es in *. exists ns. split; [exact E |].
      simpl. now constructor.
Qed.

(** A parent that is not flattened stays the parent. *)
Lemma parentElement_run l w j p :
  wf w -> parentElement w j = Some p ->
  ~ In p l \/ querySelector_span w p = false ->
  parentElement (run l w) j = Some p.
Proof.
  revert w. induction l as [| c l IH]; intros w Hw Hp Hc; [exact Hp |].
  change (run (c :: l) w) with (run l (step c w)).
  apply IH.
  - now apply wf_step.
  - apply parentElement_step; [exact Hw | exact Hp |].
    destruct Hc as [Hc | Hc].
    + left. intros ->. apply Hc. now left.
    + destruct (Nat.eq_dec p c) as [-> | Hne]; [now right | now left].
  - destruct Hc as [Hc | Hc].
    + left. intros H. apply Hc. now right.
    + right. destruct (querySelector_span (step c w) p) eqn:E; [| reflexivity].
      apply querySelector_span_step in E; [congruence | exact Hw].
Qed.

(** Every enumerated code element has a parent element. *)
Lemma select_pre_code_parent b F c :
  NoDup (elems F) -> In c (flat_map (select_pre_code b) F) ->
  b = true \/ exists x a r, chain c F = x :: a :: r.
Proof.
  revert b.
  induction F as [| d F IH | d F IH | i t cl ch F IHch IHF] using forest_ind;
    intros b HF Hc; try (now destruct Hc); try (now apply IH).
  pose proof HF as HF'. apply NoDup_elems_cons in HF' as (Hi & HiF & Hch & HFF & Hd).
  rewrite flat_map_cons_eq in Hc. simpl select_pre_code in Hc.
  apply in_app_or in Hc as [Hc | Hc]; [apply in_app_or in Hc as [Hc | Hc] |].
  - destruct b; [now left |]. destruct Hc.
  - right. apply select_pre_code_elements in Hc.
    rewrite (chain_inside c i t cl ch F HF Hc).
    destruct (chain c ch) as [| x [| a r]] eqn:E.
    + now apply chain_in in Hc.
    + now exists x, (Element i t cl ch), [].
    + now exists x, a, (r ++ [Element i t cl ch]).
  - destruct (IHF b HFF Hc) as [-> | (x & a & r & E)]; [now left | right].
    apply select_pre_code_elements in Hc.
    rewrite chain_outside; [now exists x, a, r | |].
    + intros ->. contradiction.
    + intros H. now apply (Hd c).
Qed.

Lemma querySelectorAll_parent w c :
  wf w -> In c (querySelectorAll_pre_code w) ->
  exists p, parentElement w c = Some p.
Proof.
  intros Hw Hc. unfold querySelectorAll_pre_code in Hc.
  pose proof (wf_document w Hw) as Hd. rewrite <- elems_single in Hd.
  destruct (select_pre_code_parent false [document w] c Hd) as [H | (x & a & r & E)];
    [simpl; now rewrite app_nil_r | discriminate |].
  rewrite chain_single in E.
  unfold parentElement, ancestry, forest. rewrite chain_cons, E. simpl.
  destruct (chain_elements c [document w] a) as (k & t & cl & ch & -> & _).
  { rewrite chain_single, E. right. now left. }
  now exists k.
Qed.

(** C5. Take any enumerated code element [code], with the elements
    enumerated [before] and [after] it.  The pass runs the callback on
    [before], then on [code], then on [after], and never throws.  The
    engine calls made during [before] are on elements of [before], in
    order; those made during [after] are on elements of [after], in order;
    [code] is in neither.  If [code] has a parent element when its turn
    comes, its turn makes exactly one call, on [code] itself, as it is after
    the stripper and the resolver: no span below it, and nothing left for
    the resolver to do.  That does not depend on markup or classes.  The
    parent is still there when the turn comes if it is not an enumerated
    code element, or has no span below it. *)
Theorem highlight_once_in_order :
  forall w before code after,
    wf w ->
    querySelectorAll_pre_code w = before ++ code :: after ->
    exists w1 w2 w' ns1 ns2,
      forEach (callback loaded) before w = Normal w1
      /\ callback loaded code w1 = Normal w2
      /\ forEach (callback loaded) after w2 = Normal w'
      /\ highlight_init loaded w = Normal w'
      /\ highlighted w1 = highlighted w ++ ns1
      /\ subsequence (map uid_of ns1) (map Some before)
      /\ ~ In (Some code) (map uid_of ns1)
      /\ highlighted w' = highlighted w2 ++ ns2
      /\ subsequence (map uid_of ns2) (map Some after)
      /\ ~ In (Some code) (map uid_of ns2)
      /\ (forall pre,
            parentElement w1 code = Some pre ->
            exists n,
              highlighted w2 = highlighted w1 ++ [n]
              /\ deref w2 code = Some n
              /\ querySelector "span" n = false
              /\ resolver code (Some pre) w2 = Normal w2)
      /\ exists pre,
           parentElement w code = Some pre
           /\ (~ In pre (querySelectorAll_pre_code w)
               \/ querySelector_span w pre = false ->
               parentElement w1 code = Some pre).
Proof.
  intros w before code after Hw EL.
  pose proof (querySelectorAll_NoDup w Hw) as Hnd. rewrite EL in Hnd.
  pose proof (NoDup_remove_2 _ _ _ Hnd) as Hfresh.
  set (w1 := run before w).
  set (w2 := step code w1).
  set (w' := run after w2).
  assert (Hw1 : wf w1) by now apply wf_run.
  assert (Hw2 : wf w2) by now apply wf_step.
  destruct (highlighted_run before w Hw) as (ns1 & E1 & S1).
  destruct (highlighted_run after w2 Hw2) as (ns2 & E2 & S2).
  exists w1, w2, w', ns1, ns2.
  split; [now apply forEach_run |].
  split; [now apply callback_step |].
  split; [now apply forEach_run |].
  split.
  { rewrite highlight_init_run, EL by assumption.
    now rewrite run_app. }
  split; [exact E1 |]. split; [exact S1 |].
  split.
  { intros H. apply (subsequence_in _ _ _ S1) in H.
    apply in_map_iff in H as (x & [= ->] & H).
    apply Hfresh. apply in_or_app. now left. }
  split; [exact E2 |]. split; [exact S2 |].
  split.
  { intros H. apply (subsequence_in _ _ _ S2) in H.
    apply in_map_iff in H as (x & [= ->] & H).
    apply Hfresh. apply in_or_app. now right. }
  split.
  { intros pre Hp. now apply step_snapshot. }
  destruct (querySelectorAll_parent w code Hw) as (pre & Hp).
  { rewrite EL. apply in_or_app. right. now left. }
  exists pre. split; [exact Hp |].
  intros Hc. apply parentElement_run; [exact Hw | exact Hp |].
  destruct Hc as [Hc | Hc]; [left | now right].
  intros H. apply Hc. rewrite EL. apply in_or_app. now left.
Qed.

Lemma highlight_once_in_order_witness :
  wf (page rouge_block)
  /\ querySelectorAll_pre_code (page rouge_block) = [] ++ 3 :: []
  /\ exists w',
       highlight_init loaded (page rouge_block) = Normal w'
       /\ highlighted w' = [Element 3 "code" ["language-go"] [Text "func f"]].
Proof.
  assert (Hw : wf (page rouge_block)) by solve_wf.
  split; [exact Hw |]. split; [reflexivity |].
  destruct (highlight_once_in_order (page rouge_block) [] 3 [] Hw eq_refl)
    as (w1 & w2 & w' & ns1 & ns2 & _ & _ & _ & E & _).
  exists w'. split; [exact E |]. injection E as <-. reflexivity.
Defined.

(** ** A second pass *)

Lemma precedes_app_l a c l l' : precedes a c l -> precedes a c (l ++ l').
Proof.
  intros (l1 & l2 & -> & Hc). exists l1, (l2 ++ l'). split.
  - now rewrite <- app_assoc.
  - apply in_or_app. now left.
Qed.

Lemma precedes_app_r a c l l' : precedes a c l' -> precedes a c (l ++ l').
Proof.
  intros (l1 & l2 & -> & Hc). exists (l ++ l1), l2. split; [| exact Hc].
  now rewrite <- app_assoc.
Qed.

Lemma precedes_contra a c P R :
  NoDup (P ++ a :: R) -> In c P -> ~ precedes a c (P ++ a :: R).
Proof.
  intros Hnd Hc (l1 & l2 & E & Hc2).
  assert (Hsplit : l1 = P /\ l2 = R).
  { clear Hc Hc2. revert l1 E. induction P as [| x P IH]; intros l1 E.
    - destruct l1 as [| y l1].
      + simpl in E. now inversion E.
      + simpl in E. inversion E; subst. exfalso.
        inversion Hnd as [| ? ? Hx _]; subst. apply Hx.
        apply in_or_app. right. now left.
    - destruct l1 as [| y l1].
      + simpl in E. inversion E; subst. exfalso.
        inversion Hnd as [| ? ? Hx _]; subst. apply Hx.
        apply in_or_app. right. now left.
      + simpl in E. inversion E; subst.
        inversion Hnd as [| ? ? _ Hnd']; subst.
        destruct (IH Hnd' l1 H1) as [-> ->]. now split. }
  destruct Hsplit as [-> ->].
  apply NoDup_app_inv in Hnd as (_ & _ & Hd).
  apply (Hd c Hc). now right.
Qed.

(** In the enumeration an enumerated strict ancestor comes first. *)
Lemma select_pre_code_order b F a c :
  NoDup (elems F) ->
  In (Some a) (map uid_of (tl (chain c F))) ->
  In a (flat_map (select_pre_code b) F) ->
  In c (flat_map (select_pre_code b) F) ->
  precedes a c (flat_map (select_pre_code b) F).
Proof.
  revert b.
  induction F as [| d F IH | d F IH | i t cl ch F IHch IHF] using forest_ind;
    intros b HF Ha Hsa Hsc; try (now destruct Hsa); try (now apply IH).
  pose proof HF as HF'. apply NoDup_elems_cons in HF' as (Hi & HiF & Hch & HFF & Hd).
  rewrite flat_map_cons_eq in *. simpl select_pre_code in *.
  set (sel := if b && String.eqb t "code" then [i] else []) in *.
  set (Lch := flat_map (select_pre_code (b || String.eqb t "pre")) ch) in *.
  set (LF := flat_map (select_pre_code b) F) in *.
  assert (Hsel : forall x, In x sel -> x = i).
  { intros x Hx. unfold sel in Hx. destruct (b && String.eqb t "code"); [| destruct Hx].
    destruct Hx as [<- | []]. reflexivity. }
  assert (HLch : forall x, In x Lch -> In x (elems ch))
    by (intros x; apply select_pre_code_elements).
  assert (HLF : forall x, In x LF -> In x (elems F))
    by (intros x; apply select_pre_code_elements).
  (* where an enumerated element of the children is enumerated *)
  assert (Hin_ch : forall x, In x (elems ch) -> In x ((sel ++ Lch) ++ LF) -> In x Lch).
  { intros x Hx H. apply in_app_or in H as [H | H]; [apply in_app_or in H as [H | H] |].
    - apply Hsel in H. subst. contradiction.
    - exact H.
    - apply HLF in H. now elim (Hd x Hx). }
  assert (Hin_F : forall x, In x (elems F) -> In x ((sel ++ Lch) ++ LF) -> In x LF).
  { intros x Hx H. apply in_app_or in H as [H | H]; [apply in_app_or in H as [H | H] |].
    - apply Hsel in H. subst. contradiction.
    - apply HLch in H. now elim (Hd x H).
    - exact H. }
  destruct (chain_cases c _ _ _ _ _ HF) as [(-> & Ec) | [(Hne & Hin & Hout & Ec) | (Hne & Hout & Ec)]];
    rewrite Ec in Ha.
  - destruct Ha.
  - destruct (chain c ch) as [| x r] eqn:Ex; [now apply chain_in in Hin |].
    simpl in Ha. rewrite map_app in Ha. apply in_app_or in Ha as [Ha | Ha].
    + (* the ancestor is among the children *)
      apply precedes_app_l, precedes_app_r.
      assert (Ha' : In a (elems ch)).
      { apply in_map_iff in Ha as (y & Hy & Hin').
        destruct (chain_elements c ch y) as (k & tg & cl' & ch' & -> & _ & Hincl).
        { rewrite Ex. now right. }
        simpl in Hy. inversion Hy; subst. apply Hincl. now left. }
      apply IHch; [exact Hch | | now apply Hin_ch | now apply Hin_ch].
      exact Ha.
    + (* the ancestor is the root of the first tree *)
      destruct Ha as [Ha | []]. simpl in Ha. inversion Ha; subst a.
      assert (Hs : sel = [i]).
      { apply in_app_or in Hsa as [H | H]; [apply in_app_or in H as [H | H] |].
        - unfold sel in *. destruct (b && String.eqb t "code"); [reflexivity | destruct H].
        - apply HLch in H. contradiction.
        - apply HLF in H. contradiction. }
      rewrite Hs. exists [], (Lch ++ LF). split; [now rewrite <- app_assoc |].
      apply in_or_app. left. now apply Hin_ch.
  - (* the element is in a later tree *)
    assert (Hc : In c (elems F)).
    { apply in_app_or in Hsc as [H | H]; [apply in_app_or in H as [H | H] |].
      - apply Hsel in H. now elim Hne.
      - apply HLch in H. contradiction.
      - now apply HLF. }
    apply precedes_app_r.
    assert (Ha' : In a (elems F)).
    { rewrite map_tl_eq in Ha.
      destruct (chain c F) as [| x r] eqn:Ex; [destruct Ha |].
      simpl in Ha. apply in_map_iff in Ha as (y & Hy & Hin').
      destruct (chain_elements c F y) as (k & tg & cl' & ch' & -> & _ & Hincl).
      { rewrite Ex. now right. }
      simpl in Hy. inversion Hy; subst. apply Hincl. now left. }
    apply IHF; [exact HFF | exact Ha | now apply Hin_F | now apply Hin_F].
Qed.

Lemma ancestry_document w j :
  wf w -> In j (elements (document w)) ->
  ancestry w j = inclusiveAncestors j (document w).
Proof.
  unfold wf, all_elements, ancestry, forest. intros Hw Hj.
  rewrite chain_cons. unfold elems in Hw. simpl in Hw.
  apply NoDup_app_inv in Hw as (_ & _ & Hd).
  rewrite (chain_notin j (detached w) (Hd j Hj)). apply app_nil_r.
Qed.

(** Inside the document the handles along a chain do not change. *)
Lemma document_chain_stripper c w j :
  wf w -> In j (elements (document (stripper c w))) ->
  map uid_of (inclusiveAncestors j (document (stripper c w)))
  = map uid_of (inclusiveAncestors j (document w)).
Proof.
  intros Hw. rewrite document_stripper.
  destruct (querySelector_span w c) eqn:E; [| reflexivity].
  destruct (querySelector_span_deref _ _ E) as (t & cl & ch & Ec).
  destruct (in_dec Nat.eq_dec c (elements (document w))) as [Hin | Hout];
    [| now rewrite update_absent_node].
  destruct (ancestry_in_document w c Hin) as (x & rest & Ex & Edx).
  rewrite Ec in Edx. inversion Edx; subst x.
  rewrite <- chain_single in Ex.
  pose proof (wf_document w Hw) as Hnd. rewrite <- elems_single in Hnd.
  intros Hj. rewrite <- !chain_single.
  destruct (in_dec Nat.eq_dec j (elems ch)) as [Hb | Hb].
  - exfalso. rewrite <- elems_single in Hj. apply chain_in in Hj. apply Hj.
    exact (chain_update_replaceAll_removed c _ [document w] t cl ch rest j Hnd Ex Hb).
  - pose proof (chain_update_replaceAll_kept c (get_textContent w c) [document w]
                  t cl ch rest j Hnd Ex Hb) as H.
    change (map (update c (replaceAll (get_textContent w c))) [document w])
      with [update c (replaceAll (get_textContent w c)) (document w)] in H.
    rewrite H. apply map_uid_of_update_replaceAll.
Qed.

Lemma document_chain_resolved c p w j :
  wf w ->
  map uid_of (inclusiveAncestors j (document (resolved c p w)))
  = map uid_of (inclusiveAncestors j (document w)).
Proof.
  intros Hw. destruct (resolved_cases c p w) as [-> | (t & _ & _ & _ & ->)];
    [reflexivity |].
  pose proof (wf_document w Hw) as Hnd. rewrite <- elems_single in Hnd.
  pose proof (chain_update_add c t j [document w] Hnd) as H.
  change (map (update c (add t)) [document w])
    with [update c (add t) (document w)] in H.
  rewrite !chain_single in H. simpl document.
  rewrite H. apply map_uid_of_update_add.
Qed.

Lemma document_chain_step c w j :
  wf w -> In j (elements (document (step c w))) ->
  map uid_of (inclusiveAncestors j (document (step c w)))
  = map uid_of (inclusiveAncestors j (document w)).
Proof.
  intros Hw. unfold step. destruct (parentElement w c) as [p |]; [| reflexivity].
  change (document (logged c ?w')) with (document w').
  rewrite elements_document_resolved, document_chain_resolved by auto with dom.
  now apply document_chain_stripper.
Qed.

(** A settled element stays settled through the turn of an element that is
    not one of its inclusive ancestors. *)
Lemma settled_step_other c w c' :
  wf w -> settled w c' ->
  ~ In (Some c) (map uid_of (ancestry w c')) ->
  settled (step c w) c'.
Proof.
  intros Hw (Hs & p & Hp & Hl) Hc.
  destruct (ancestry_parent w c' p Hw Hp) as (x & Ex & Ea).
  destruct (deref_element _ _ _ Ex) as (t & cl & ch & ->).
  rewrite Ea in Hc. simpl in Hc.
  assert (Hne : c' <> c) by (intros ->; apply Hc; now left).
  assert (Hcp : ~ In (Some c) (map uid_of (ancestry w p))) by tauto.
  split.
  - destruct (querySelector_span (step c w) c') eqn:E; [| reflexivity].
    apply querySelector_span_step in E; [congruence | exact Hw].
  - exists p. split.
    + rewrite parentElement_uids.
      destruct (ancestry_step_kept c w c' Hw) as [-> _].
      * rewrite Ea. simpl. tauto.
      * now rewrite <- parentElement_uids.
    + destruct (ancestry_step_kept c w p Hw Hcp) as [_ E].
      rewrite (langClass_from_ext _ _ E), classes_step_other by assumption.
      exact Hl.
Qed.

(** On settled elements the loop only calls the engine. *)
Lemma run_settled l w :
  wf w -> (forall c, In c l -> settled w c) ->
  document (run l w) = document w
  /\ detached (run l w) = detached w
  /\ exists ns,
       highlighted (run l w) = highlighted w ++ ns
       /\ map uid_of ns = map Some l.
Proof.
  revert w. induction l as [| c l IH]; intros w Hw Hl.
  - repeat split. exists []. split; [now rewrite app_nil_r | reflexivity].
  - change (run (c :: l) w) with (run l (step c w)).
    pose proof (Hl c (or_introl eq_refl)) as Hc.
    rewrite (step_settled c w Hc).
    destruct (IH (logged c w) (wf_logged c w Hw)) as (Ed & Et & ns & Eh & Eu).
    { intros c' Hc'. exact (Hl c' (or_intror Hc')). }
    split; [exact Ed |]. split; [exact Et |].
    destruct Hc as (_ & p & Hp & _).
    destruct (ancestry_parent w c p Hw Hp) as (x & Ex & _).
    destruct (deref_element _ _ _ Ex) as (t & cl & ch & ->).
    exists (Element c t cl ch :: ns). split.
    + rewrite Eh. unfold logged. simpl. rewrite Ex. now rewrite <- app_assoc.
    + simpl. now rewrite Eu.
Qed.

Section FirstPass.

(** The world in which the pass starts. *)
Variable w0 : world.
Hypothesis Hw0 : wf w0.

Lemma loop_invariant_step P c R w :
  querySelectorAll_pre_code w0 = P ++ c :: R ->
  loop_invariant w0 (P ++ c :: R) P w ->
  loop_invariant w0 (P ++ c :: R) (P ++ [c]) (step c w).
Proof.
  intros EL (Hw & Hdoc & Hset & Hsel).
  pose proof (querySelectorAll_NoDup w0 Hw0) as Hnd. rewrite EL in Hnd.
  split; [now apply wf_step |]. split; [| split].
  - intros j Hj.
    pose proof (proj1 (document_step_elements c w j Hw) Hj) as Hj'.
    destruct (Hdoc j Hj') as [H0 E]. split; [exact H0 |].
    now rewrite document_chain_step.
  - intros c' Hc' Hin.
    pose proof (proj1 (document_step_elements c w c' Hw) Hin) as Hin'.
    destruct (Hdoc c' Hin') as [H0 E].
    apply in_app_or in Hc' as [Hc' | [<- | []]].
    + (* an element settled earlier *)
      apply settled_step_other; [exact Hw | now apply Hset |].
      rewrite (ancestry_document w c' Hw Hin'), E.
      intros Hanc.
      assert (Hne : c <> c').
      { intros ->. apply NoDup_remove_2 in Hnd. apply Hnd.
        apply in_or_app. now left. }
      apply (precedes_contra c c' P R Hnd Hc').
      rewrite <- EL. unfold querySelectorAll_pre_code.
      pose proof (wf_document w0 Hw0) as Hd0. rewrite <- elems_single in Hd0.
      pose proof (select_pre_code_order false [document w0] c c' Hd0) as Hord.
      simpl flat_map in Hord. rewrite app_nil_r, chain_single in Hord.
      fold (querySelectorAll_pre_code w0) in *.
      apply Hord.
      * destruct (inclusiveAncestors c' (document w0)) as [| x r] eqn:Ex;
          [destruct Hanc |].
        simpl in Hanc. destruct Hanc as [Hx | Hr]; [| exact Hr].
        exfalso. apply Hne.
        rewrite <- chain_single in Ex. apply chain_head in Ex. congruence.
      * rewrite EL. apply in_or_app. right. now left.
      * rewrite EL. apply in_or_app. now left.
    + (* the element whose turn it was *)
      assert (Hp : exists p, parentElement w c = Some p).
      { destruct (querySelectorAll_parent w0 c Hw0) as (p0 & Hp0).
        { rewrite EL. apply in_or_app. right. now left. }
        rewrite parentElement_uids in *.
        rewrite (ancestry_document w c Hw Hin'), E.
        rewrite (ancestry_document w0 c Hw0 H0) in Hp0. eauto. }
      destruct Hp as (p & Hp). now apply (settled_step_self c w p).
  - intros x Hx. apply Hsel. now apply (querySelectorAll_step c w x).
Qed.

Lemma loop_invariant_run R :
  forall P w,
    querySelectorAll_pre_code w0 = P ++ R ->
    loop_invariant w0 (P ++ R) P w ->
    loop_invariant w0 (P ++ R) (P ++ R) (run R w).
Proof.
  induction R as [| c R IH]; intros P w EL Hinv.
  - rewrite app_nil_r in *. exact Hinv.
  - change (run (c :: R) w) with (run R (step c w)).
    replace (P ++ c :: R) with ((P ++ [c]) ++ R) in * by now rewrite <- app_assoc.
    apply IH; [exact EL |].
    replace ((P ++ [c]) ++ R) with (P ++ c :: R) in * by now rewrite <- app_assoc.
    now apply loop_invariant_step.
Qed.

End FirstPass.

(** After one pass every enumerated code element of the document is
    settled. *)
Lemma pass_settles w :
  wf w ->
  forall c, In c (querySelectorAll_pre_code (run (querySelectorAll_pre_code w) w)) ->
            settled (run (querySelectorAll_pre_code w) w) c.
Proof.
  intros Hw c Hc.
  destruct (loop_invariant_run w Hw (querySelectorAll_pre_code w) [] w eq_refl)
    as (_ & _ & Hset & Hsel).
  { split; [exact Hw |]. split; [now split |]. split; [intros ? [] | tauto]. }
  simpl in Hset, Hsel. apply Hset.
  - now apply Hsel.
  - unfold querySelectorAll_pre_code in Hc at 1.
    pose proof (select_pre_code_elements false
                  [document (run (querySelectorAll_pre_code w) w)] c) as H.
    simpl in H. rewrite !app_nil_r in H. now apply H.
Qed.

(** C8. A second pass over the world a first pass produced completes
    normally and leaves the document and the detached trees exactly as they
    were, hence every class list and every text content; it calls the engine
    once more on each enumerated code element of the processed document, in
    document order, and makes no other call. *)
Theorem second_pass_only_highlights :
  forall w,
    wf w ->
    exists w1 w2 ns,
      highlight_init loaded w = Normal w1
      /\ highlight_init loaded w1 = Normal w2
      /\ document w2 = document w1
      /\ detached w2 = detached w1
      /\ (forall j, classes w2 j = classes w1 j
                    /\ get_textContent w2 j = get_textContent w1 j)
      /\ highlighted w2 = highlighted w1 ++ ns
      /\ map uid_of ns = map Some (querySelectorAll_pre_code w1)
      /\ NoDup (querySelectorAll_pre_code w1).
Proof.
  intros w Hw.
  set (w1 := run (querySelectorAll_pre_code w) w).
  assert (Hw1 : wf w1) by now apply wf_run.
  destruct (run_settled (querySelectorAll_pre_code w1) w1 Hw1 (pass_settles w Hw))
    as (Ed & Et & ns & Eh & Eu).
  exists w1, (run (querySelectorAll_pre_code w1) w1), ns.
  split; [now apply highlight_init_run |].
  split; [now apply highlight_init_run |].
  split; [exact Ed |]. split; [exact Et |].
  split.
  { intros j. unfold classes, get_textContent, deref, ancestry, forest.
    now rewrite Ed, Et. }
  split; [exact Eh |]. split; [exact Eu |].
  now apply querySelectorAll_NoDup.
Qed.

Lemma second_pass_only_highlights_witness :
  wf (page rouge_block)
  /\ exists w1 w2,
       highlight_init loaded (page rouge_block) = Normal w1
       /\ highlight_init loaded w1 = Normal w2
       /\ document w2 = document w1
       /\ highlighted w2
          = [Element 3 "code" ["language-go"] [Text "func f"];
             Element 3 "code" ["language-go"] [Text "func f"]].
Proof.
  assert (Hw : wf (page rouge_block)) by solve_wf.
  split; [exact Hw |].
  destruct (second_pass_only_highlights (page rouge_block) Hw)
    as (w1 & w2 & ns & E1 & E2 & Ed & _).
  exists w1, w2. split; [exact E1 |]. split; [exact E2 |]. split; [exact Ed |].
  injection E1 as <-. injection E2 as <-. reflexivity.
Defined.

(** * Further properties of the script *)

(** ** The enumeration *)

Lemma select_pre_code_no_code b F :
  existsb (has_element "code") F = false ->
  flat_map (select_pre_code b) F = [].
Proof.
  revert b.
  induction F as [| d F IH | d F IH | i t cl ch F IHch IHF] using forest_ind;
    intros b H; try reflexivity; try (now apply IH).
  rewrite existsb_cons_eq in H. apply orb_false_iff in H as [Hn HF].
  simpl in Hn. apply orb_false_iff in Hn as [Ht Hch].
  rewrite flat_map_cons_eq. simpl select_pre_code.
  now rewrite Ht, andb_false_r, IHch, IHF.
Qed.

Lemma select_pre_code_no_pre F :
  existsb (has_element "pre") F = false ->
  flat_map (select_pre_code false) F = [].
Proof.
  induction F as [| d F IH | d F IH | i t cl ch F IHch IHF] using forest_ind;
    intros H; try reflexivity; try (now apply IH).
  rewrite existsb_cons_eq in H. apply orb_false_iff in H as [Hn HF].
  simpl in Hn. apply orb_false_iff in Hn as [Ht Hch].
  rewrite flat_map_cons_eq. simpl select_pre_code.
  now rewrite Ht, IHch, IHF.
Qed.

(** X1. On a page that has no [pre] element, or no [code] element, nothing
    is enumerated: whatever the window, the script returns the world it was
    given, with no call of the engine. *)
Theorem no_code_block_noop :
  forall win w,
    has_element "pre" (document w) = false
    \/ has_element "code" (document w) = false ->
    querySelectorAll_pre_code w = []
    /\ highlight_init win w = Normal w.
Proof.
  intros win w H.
  assert (E : querySelectorAll_pre_code w = []).
  { unfold querySelectorAll_pre_code.
    rewrite <- (app_nil_r (select_pre_code false (document w))).
    change (flat_map (select_pre_code false) [document w] = []).
    destruct H as [H | H].
    - apply select_pre_code_no_pre. simpl. now rewrite H.
    - apply select_pre_code_no_code. simpl. now rewrite H. }
  split; [exact E |].
  unfold highlight_init. rewrite E. now destruct (hljs win).
Qed.

Lemma no_code_block_noop_witness :
  has_element "pre" (document (page post_list)) = false
  /\ highlight_init loaded (page post_list) = Normal (page post_list).
Proof.
  split; [reflexivity |].
  exact (proj2 (no_code_block_noop loaded (page post_list) (or_introl eq_refl))).
Defined.

Lemma matches_chain_app b x above t j cl ch :
  matches_chain b ((x :: above) ++ [Element j t cl ch])
  = matches_chain (b || String.eqb t "pre") (x :: above).
Proof.
  simpl. rewrite existsb_app. simpl. rewrite orb_false_r.
  f_equal. destruct b, (String.eqb t "pre"),
    (existsb (fun a => String.eqb (localName_of a) "pre") above); reflexivity.
Qed.

(** The recursive enumeration selects, in tree order, the elements whose
    chain matches the selector. *)
Lemma select_pre_code_filter b F :
  NoDup (elems F) ->
  flat_map (select_pre_code b) F
  = filter (fun c => matches_chain b (chain c F)) (elems F).
Proof.
  revert b.
  induction F as [| d F IH | d F IH | i t cl ch F IHch IHF] using forest_ind;
    intros b HF; try reflexivity; try (now apply IH).
  pose proof HF as HF'. apply NoDup_elems_cons in HF' as (Hi & HiF & Hch & HFF & Hd).
  rewrite flat_map_cons_eq, elems_cons_element. simpl select_pre_code.
  cbn [filter]. rewrite (chain_here i t cl ch F HF). cbn [matches_chain localName_of existsb].
  rewrite orb_false_r, andb_comm, filter_app, <- app_assoc.
  replace (filter (fun c => matches_chain b (chain c (Element i t cl ch :: F))) (elems ch))
    with (filter (fun c => matches_chain (b || String.eqb t "pre") (chain c ch)) (elems ch)).
  - replace (filter (fun c => matches_chain b (chain c (Element i t cl ch :: F))) (elems F))
      with (filter (fun c => matches_chain b (chain c F)) (elems F)).
    + rewrite <- IHch, <- IHF by assumption.
      now destruct (String.eqb t "code" && b).
    + apply filter_ext_in. intros c Hc. rewrite chain_outside; [reflexivity | |].
      * intros ->. contradiction.
      * intros H. now apply (Hd c).
  - apply filter_ext_in. intros c Hc.
    rewrite (chain_inside c i t cl ch F HF Hc).
    destruct (chain c ch) as [| x above] eqn:E; [now apply chain_in in Hc |].
    symmetry. apply matches_chain_app.
Qed.

Lemma querySelectorAll_filter w :
  wf w ->
  querySelectorAll_pre_code w
  = filter (matches_pre_code w) (elements (document w)).
Proof.
  intros Hw. unfold querySelectorAll_pre_code.
  pose proof (wf_document w Hw) as Hd. rewrite <- elems_single in Hd.
  pose proof (select_pre_code_filter false [document w] Hd) as H.
  simpl flat_map in H. rewrite app_nil_r, elems_single in H. rewrite H.
  apply filter_ext_in. intros c Hc. unfold matches_pre_code.
  now rewrite (ancestry_document w c Hw Hc), chain_single.
Qed.

(** X2. The enumeration is the list of the elements of the document, in
    document order, filtered by the selector: the [code] elements that have
    a [pre] element among their strict ancestors. *)
Theorem querySelectorAll_is_filter :
  forall w,
    wf w ->
    querySelectorAll_pre_code w
    = filter (matches_pre_code w) (elements (document w)).
Proof. exact querySelectorAll_filter. Qed.

Lemma querySelectorAll_is_filter_witness :
  wf (page article)
  /\ matches_pre_code (page article) 12 = false
  /\ matches_pre_code (page article) 3 = true
  /\ querySelectorAll_pre_code (page article) = [3].
Proof.
  assert (Hw : wf (page article)) by solve_wf.
  split; [exact Hw |]. split; [reflexivity |]. split; [reflexivity |].
  rewrite (querySelectorAll_is_filter (page article) Hw). reflexivity.
Defined.

(** ** What the pass leaves alone *)

Lemma deref_stripper_absent c w j x :
  wf w -> deref w j = Some x -> ~ In c (elements x) ->
  deref (stripper c w) j = Some x.
Proof.
  intros Hw E Hc. unfold stripper. destruct (querySelector_span w c); [| exact E].
  rewrite deref_set_textContent, E by assumption. simpl.
  now rewrite update_absent_node.
Qed.

Lemma deref_resolved_absent c p w j x :
  wf w -> deref w j = Some x -> ~ In c (elements x) ->
  deref (resolved c p w) j = Some x.
Proof.
  intros Hw E Hc. destruct (resolved_cases c p w) as [-> | (t & _ & _ & _ & ->)];
    [exact E |].
  rewrite deref_classList_add, E by assumption. simpl.
  now rewrite update_absent_node.
Qed.

Lemma deref_step_absent c w j x :
  wf w -> deref w j = Some x -> ~ In c (elements x) ->
  deref (step c w) j = Some x.
Proof.
  intros Hw E Hc. unfold step. destruct (parentElement w c) as [p |]; [| exact E].
  rewrite deref_logged.
  apply deref_resolved_absent; [auto with dom | | exact Hc].
  now apply deref_stripper_absent.
Qed.

Lemma deref_run_absent l w j x :
  wf w -> deref w j = Some x ->
  (forall c, In c l -> ~ In c (elements x)) ->
  deref (run l w) j = Some x.
Proof.
  revert w. induction l as [| c l IH]; intros w Hw E Hl; [exact E |].
  change (run (c :: l) w) with (run l (step c w)).
  apply IH; [auto with dom | | intros c' Hc'; apply Hl; now right].
  apply deref_step_absent; [exact Hw | exact E |]. apply Hl. now left.
Qed.

(** X3. An element that is not an enumerated code element and has none
    below it comes out of the pass exactly as it went in: same name, same
    class list, same child nodes all the way down.  Inline code, and spans
    outside code blocks, are such elements. *)
Theorem pass_keeps_unrelated_subtrees :
  forall w j x,
    wf w -> deref w j = Some x ->
    (forall c, In c (querySelectorAll_pre_code w) -> ~ In c (elements x)) ->
    exists w',
      highlight_init loaded w = Normal w' /\ deref w' j = Some x.
Proof.
  intros w j x Hw E Hfree. exists (run (querySelectorAll_pre_code w) w).
  split; [now apply highlight_init_run | now apply deref_run_absent].
Qed.

Lemma pass_keeps_unrelated_subtrees_witness :
  wf (page article)
  /\ exists w',
       highlight_init loaded (page article) = Normal w'
       /\ deref w' 11
          = Some (Element 11 "p" [] [Text "Call "; Element 12 "code" [] [Text "f"]]).
Proof.
  assert (Hw : wf (page article)) by solve_wf.
  split; [exact Hw |].
  apply (pass_keeps_unrelated_subtrees (page article) 11 _ Hw eq_refl).
  intros c [<- | []]. simpl. intros [H | [H | []]]; discriminate.
Defined.

(** ** The DOM operations the script relies on *)

(** X4. Flattening is idempotent: a second run of the stripper on the same
    code element finds no span and returns the world of the first run. *)
Theorem stripper_idempotent :
  forall w code,
    wf w -> stripper code (stripper code w) = stripper code w.
Proof.
  intros w code Hw. unfold stripper at 1.
  now rewrite querySelector_span_stripper_self.
Qed.

Lemma stripper_idempotent_witness :
  wf (page rouge_block)
  /\ stripper 3 (stripper 3 (page rouge_block)) = stripper 3 (page rouge_block)
  /\ stripper 3 (page rouge_block) <> page rouge_block.
Proof.
  assert (Hw : wf (page rouge_block)) by solve_wf.
  split; [exact Hw |]. split.
  - exact (stripper_idempotent (page rouge_block) 3 Hw).
  - cbv. discriminate.
Defined.

(** X5. Reading back what was assigned: after [el.textContent = s] the
    text content of [el] is [s], no element is left below [el], and no class
    list has changed. *)
Theorem textContent_set_get :
  forall w el x s,
    wf w -> deref w el = Some x ->
    get_textContent (set_textContent el s w) el = s
    /\ (exists x', deref (set_textContent el s w) el = Some x'
                   /\ has_markup x' = false)
    /\ forall j, classes (set_textContent el s w) j = classes w j.
Proof.
  intros w el x s Hw E.
  destruct (deref_element _ _ _ E) as (t & cl & ch & ->).
  assert (E' : deref (set_textContent el s w) el = Some (Element el t cl (flat s))).
  { rewrite deref_set_textContent, E by assumption.
    simpl. now rewrite Nat.eqb_refl. }
  split; [| split].
  - unfold get_textContent. rewrite E'. simpl. apply joined_flat.
  - exists (Element el t cl (flat s)). split; [exact E' |].
    unfold has_markup, flat. simpl. now destruct (String.eqb s "").
  - intros j. now apply classes_set_textContent.
Qed.

Lemma textContent_set_get_witness :
  wf (page rouge_block)
  /\ get_textContent (set_textContent 2 "x" (page rouge_block)) 2 = "x".
Proof.
  assert (Hw : wf (page rouge_block)) by solve_wf.
  split; [exact Hw |].
  exact (proj1 (textContent_set_get (page rouge_block) 2 _ "x" Hw eq_refl)).
Defined.

Lemma update_fixed c f F x r :
  NoDup (elems F) -> chain c F = x :: r -> f x = x ->
  map (update c f) F = F.
Proof.
  revert r.
  induction F as [| d F IH | d F IH | i t cl ch F IHch IHF] using forest_ind;
    intros r HF E Hf; try discriminate;
    try (simpl; f_equal; now apply (IH r)).
  pose proof HF as HF'. apply NoDup_elems_cons in HF' as (Hi & HiF & Hch & HFF & Hd).
  rewrite map_cons, update_element.
  destruct (chain_cases c _ _ _ _ _ HF) as [(-> & Ec) | [(Hne & Hin & Hout & Ec) | (Hne & Hout & Ec)]];
    rewrite Ec in E.
  - inversion E; subst. rewrite Nat.eqb_refl, Hf.
    now rewrite (update_absent c f F).
  - destruct (Nat.eqb_spec i c); [contradiction |].
    destruct (chain c ch) as [| y r'] eqn:Ey; [now apply chain_in in Hin |].
    simpl in E. inversion E; subst.
    now rewrite (IHch r' Hch eq_refl Hf), (update_absent c f F).
  - destruct (Nat.eqb_spec i c); [contradiction |].
    now rewrite (update_absent c f ch), (IHF r HFF E Hf).
Qed.

(** X6. [classList.add] on a token that is already there changes nothing,
    so the [contains] test of the script only avoids a call that would have
    no effect; and after [classList.add] the token is there. *)
Theorem classList_add_present :
  forall w el token,
    wf w ->
    (classList_contains w el token = true -> classList_add el token w = w)
    /\ (forall x, deref w el = Some x ->
                  classList_contains (classList_add el token w) el token = true).
Proof.
  intros w el token Hw. split.
  - intros Hc. unfold classList_contains, classes in Hc.
    destruct (deref w el) as [x |] eqn:E; [| discriminate].
    destruct (deref_element _ _ _ E) as (t & cl & ch & ->). simpl in Hc.
    unfold deref in E. destruct (ancestry w el) as [| y r] eqn:Ea; [discriminate |].
    simpl in E. inversion E; subst y.
    assert (Hfix : add token (Element el t cl ch) = Element el t cl ch)
      by (simpl; now rewrite Hc).
    pose proof (update_fixed el (add token) (forest w) _ r Hw Ea Hfix) as Hm.
    unfold forest in Hm. simpl in Hm. injection Hm as Hd Ht.
    unfold classList_add. rewrite Hd, Ht. now destruct w.
  - intros x E. unfold classList_contains.
    rewrite (classes_classList_add_same el token w x Hw E).
    destruct (contains (classes w el) token) eqn:Ec; [exact Ec |].
    apply contains_true_iff. apply in_or_app. right. now left.
Qed.

Lemma classList_add_present_witness :
  wf (page rouge_block)
  /\ classList_add 1 "language-go" (page rouge_block) = page rouge_block
  /\ classList_contains (classList_add 3 "language-go" (page rouge_block)) 3
       "language-go" = true.
Proof.
  assert (Hw : wf (page rouge_block)) by solve_wf.
  split; [exact Hw |].
  destruct (classList_add_present (page rouge_block) 1 "language-go" Hw) as [H _].
  destruct (classList_add_present (page rouge_block) 3 "language-go" Hw) as [_ H'].
  split; [exact (H eq_refl) | exact (H' _ eq_refl)].
Defined.

(** ** How the stages compose *)

Lemma update_commute c token s F :
  map (update c (add token)) (map (update c (replaceAll s)) F)
  = map (update c (replaceAll s)) (map (update c (add token)) F).
Proof.
  induction F as [| d F IH | d F IH | i t cl ch F IHch IHF] using forest_ind;
    try reflexivity; try (simpl; f_equal; exact IH).
  rewrite !map_cons, IHF. f_equal.
  rewrite !update_element. destruct (Nat.eqb_spec i c) as [-> | Hne].
  - rewrite replaceAll_flat, add_element, !update_element, Nat.eqb_refl.
    now rewrite replaceAll_flat, add_element.
  - rewrite !update_element. destruct (Nat.eqb_spec i c); [contradiction |].
    now rewrite IHch.
Qed.

Lemma classList_add_set_textContent c token s w :
  wf w ->
  classList_add c token (set_textContent c s w)
  = set_textContent c s (classList_add c token w).
Proof.
  intros Hw.
  pose proof (update_commute c token s (forest w)) as H.
  unfold forest in H. simpl in H. injection H as Hd Ht.
  unfold classList_add, set_textContent. simpl.
  rewrite Hd, map_app, Ht. f_equal. f_equal.
  fold (classList_add c token w).
  rewrite deref_classList_add by assumption.
  destruct (deref w c) as [x |] eqn:E; [| reflexivity].
  destruct (deref_element _ _ _ E) as (t & cl & ch & ->).
  simpl. rewrite Nat.eqb_refl. simpl.
  (* the children of [c] do not contain [c] *)
  apply update_absent.
  unfold deref in E. destruct (ancestry w c) as [| y r] eqn:Ea; [discriminate |].
  simpl in E. inversion E; subst.
  assert (Hnd : NoDup (elements (Element c t cl ch))).
  { apply (chain_NoDup c (forest w)); [exact Hw |].
    unfold ancestry in Ea. rewrite Ea. now left. }
  simpl in Hnd. now inversion Hnd.
Qed.

Lemma langClass_from_stripper c p w :
  wf w -> parentElement w c = Some p ->
  langClass_from (ancestry (stripper c w) p) = langClass_from (ancestry w p).
Proof.
  intros Hw Hp. apply langClass_from_ext.
  apply (ancestry_stripper_kept c w p Hw).
  intros H. apply (ancestry_parent_fresh w c p Hw Hp).
  destruct (ancestry w p); [exact H | now right].
Qed.

Lemma resolved_stripper_commute c p w :
  wf w -> parentElement w c = Some p ->
  resolved c p (stripper c w) = stripper c (resolved c p w).
Proof.
  intros Hw Hp.
  unfold resolved at 1.
  rewrite langClass_from_stripper, classes_stripper by assumption.
  unfold resolved.
  destruct (langClass_from (ancestry w p)) as [token |]; [| reflexivity].
  destruct (contains (classes w c) token); [reflexivity |].
  unfold stripper.
  rewrite querySelector_span_classList_add, get_textContent_classList_add
    by assumption.
  destruct (querySelector_span w c); [| reflexivity].
  now apply classList_add_set_textContent.
Qed.

(** X7. The stripper and the resolver can run in either order: resolving
    first and flattening afterwards gives the world the script produces by
    flattening first and resolving afterwards. *)
Theorem stripper_resolver_commute :
  forall w code pre,
    wf w -> parentElement w code = Some pre ->
    exists w1 w2,
      resolver code (Some pre) (stripper code w) = Normal w1
      /\ resolver code (Some pre) w = Normal w2
      /\ stripper code w2 = w1.
Proof.
  intros w code pre Hw Hp.
  exists (resolved code pre (stripper code w)), (resolved code pre w).
  split; [apply resolver_resolved; auto with dom |].
  split; [now apply resolver_resolved |].
  symmetry. now apply resolved_stripper_commute.
Qed.

Lemma stripper_resolver_commute_witness :
  wf (page rouge_block)
  /\ parentElement (page rouge_block) 3 = Some 2
  /\ exists w2,
       resolver 3 (Some 2) (page rouge_block) = Normal w2
       /\ resolver 3 (Some 2) (stripper 3 (page rouge_block))
          = Normal (stripper 3 w2).
Proof.
  assert (Hw : wf (page rouge_block)) by solve_wf.
  split; [exact Hw |]. split; [reflexivity |].
  destruct (stripper_resolver_commute (page rouge_block) 3 2 Hw eq_refl)
    as (w1 & w2 & E1 & E2 & E).
  exists w2. split; [exact E2 |]. now rewrite E.
Defined.

(** X8. The callback is idempotent on the trees: called again on the same
    code element, right after its turn, it changes neither the document nor
    the detached trees and passes the same element to the engine again. *)
Theorem callback_twice :
  forall w code pre,
    wf w -> parentElement w code = Some pre ->
    exists w1 w2 n,
      callback loaded code w = Normal w1
      /\ callback loaded code w1 = Normal w2
      /\ document w2 = document w1
      /\ detached w2 = detached w1
      /\ deref w1 code = Some n
      /\ highlighted w1 = highlighted w ++ [n]
      /\ highlighted w2 = highlighted w ++ [n; n].
Proof.
  intros w code pre Hw Hp.
  destruct (step_snapshot code w pre Hw Hp) as (n & Hl & En & _).
  pose proof (settled_step_self code w pre Hw Hp) as Hs.
  exists (step code w), (step code (step code w)), n.
  split; [now apply callback_step |].
  split; [apply callback_step; auto with dom |].
  rewrite (step_settled code (step code w) Hs).
  repeat split; try assumption.
  unfold logged. simpl. rewrite En, Hl, <- app_assoc. reflexivity.
Qed.

Lemma callback_twice_witness :
  wf (page rouge_block)
  /\ parentElement (page rouge_block) 3 = Some 2
  /\ exists w1 w2,
       callback loaded 3 (page rouge_block) = Normal w1
       /\ callback loaded 3 w1 = Normal w2
       /\ document w2 = document w1.
Proof.
  assert (Hw : wf (page rouge_block)) by solve_wf.
  split; [exact Hw |]. split; [reflexivity |].
  destruct (callback_twice (page rouge_block) 3 2 Hw eq_refl)
    as (w1 & w2 & n & E1 & E2 & Ed & _).
  now exists w1, w2.
Defined.

(** ** The pass as a whole *)

Lemma run_all_logged l w :
  wf w ->
  (forall c, In c l ->
     exists p, parentElement w c = Some p
               /\ (~ In p l \/ querySelector_span w p = false)) ->
  exists ns,
    highlighted (run l w) = highlighted w ++ ns
    /\ map uid_of ns = map Some l.
Proof.
  revert w. induction l as [| c l IH]; intros w Hw Hl.
  - exists []. split; [now rewrite app_nil_r | reflexivity].
  - change (run (c :: l) w) with (run l (step c w)).
    destruct (Hl c (or_introl eq_refl)) as (p & Hp & _).
    destruct (step_snapshot c w p Hw Hp) as (n & El & En & _).
    destruct (IH (step c w) (wf_step c w Hw)) as (ns & E & Eu).
    { intros c' Hc'. destruct (Hl c' (or_intror Hc')) as (p' & Hp' & Hfree).
      exists p'. split.
      - apply parentElement_step; [exact Hw | exact Hp' |].
        destruct Hfree as [Hfree | Hfree].
        + left. intros ->. apply Hfree. now left.
        + destruct (Nat.eq_dec p' c) as [-> | Hne]; [now right | now left].
      - destruct Hfree as [Hfree | Hfree].
        + left. intros H. apply Hfree. now right.
        + right. destruct (querySelector_span (step c w) p') eqn:Es; [| reflexivity].
          apply querySelector_span_step in Es; [congruence | exact Hw]. }
    exists (n :: ns). split.
    + rewrite E, El, <- app_assoc. reflexivity.
    + destruct (deref_element _ _ _ En) as (t & cl & ch & ->).
      simpl. now rewrite Eu.
Qed.

(** X9. On a page where no enumerated code element has, as its parent, an
    enumerated code element with a span below it, no block is skipped: the
    engine is called on exactly the enumerated elements, once each, in
    document order. *)
Theorem every_block_highlighted :
  forall w,
    wf w ->
    (forall c p,
        In c (querySelectorAll_pre_code w) -> parentElement w c = Some p ->
        ~ In p (querySelectorAll_pre_code w) \/ querySelector_span w p = false) ->
    exists w' ns,
      highlight_init loaded w = Normal w'
      /\ highlighted w' = highlighted w ++ ns
      /\ map uid_of ns = map Some (querySelectorAll_pre_code w).
Proof.
  intros w Hw Hflat.
  destruct (run_all_logged (querySelectorAll_pre_code w) w Hw) as (ns & E & Eu).
  { intros c Hc. destruct (querySelectorAll_parent w c Hw Hc) as (p & Hp).
    exists p. split; [exact Hp | now apply (Hflat c p)]. }
  exists (run (querySelectorAll_pre_code w) w), ns.
  split; [now apply highlight_init_run | now split].
Qed.

Lemma every_block_highlighted_witness :
  wf (page article)
  /\ exists w' ns,
       highlight_init loaded (page article) = Normal w'
       /\ highlighted w' = ns
       /\ map uid_of ns = [Some 3].
Proof.
  assert (Hw : wf (page article)) by solve_wf.
  split; [exact Hw |].
  destruct (every_block_highlighted (page article) Hw) as (w' & ns & E & Eh & Eu).
  - intros c p [<- | []] Hp. left. injection Hp as <-.
    simpl. intros [H | []]. discriminate.
  - exists w', ns. split; [exact E |]. split; [exact Eh | exact Eu].
Defined.

(** X10. What the pass achieves: afterwards no enumerated code element of
    the document has a span below it, each has a parent element, and each
    carries the language class its class source offers, if it offers
    one. *)
Theorem pass_postcondition :
  forall w,
    wf w ->
    exists w',
      highlight_init loaded w = Normal w'
      /\ forall code,
           In code (querySelectorAll_pre_code w') ->
           querySelector_span w' code = false
           /\ exists pre,
                parentElement w' code = Some pre
                /\ forall token,
                     langClass_of w' (Some pre) = Normal (Some token) ->
                     classList_contains w' code token = true.
Proof.
  intros w Hw. exists (run (querySelectorAll_pre_code w) w).
  split; [now apply highlight_init_run |].
  intros code Hc.
  destruct (pass_settles w Hw code Hc) as (Hs & pre & Hp & Hl).
  split; [exact Hs |]. exists pre. split; [exact Hp |].
  intros token E. rewrite langClass_of_ancestry in E by auto with dom.
  injection E as E. rewrite E in Hl. now apply contains_true_iff.
Qed.

Lemma pass_postcondition_witness :
  wf (page rouge_block)
  /\ exists w',
       highlight_init loaded (page rouge_block) = Normal w'
       /\ querySelector_span w' 3 = false
       /\ classList_contains w' 3 "language-go" = true.
Proof.
  assert (Hw : wf (page rouge_block)) by solve_wf.
  split; [exact Hw |].
  destruct (pass_postcondition (page rouge_block) Hw) as (w' & E & H).
  exists w'. split; [exact E |].
  injection E as <-.
  destruct (H 3 (or_introl eq_refl)) as (Hs & pre & Hp & Hl).
  split; [exact Hs |]. injection Hp as <-. apply Hl. reflexivity.
Defined.

(** ** Nested code elements *)

Lemma parentElement_stripper_child c p w :
  wf w -> parentElement w c = Some p -> querySelector_span w p = true ->
  parentElement (stripper p w) c = None.
Proof.
  intros Hw Hp Hs.
  destruct (querySelector_span_deref _ _ Hs) as (t & cl & ch & Ep).
  destruct (ancestry_parent w c p Hw Hp) as (x & Ex & Ea).
  assert (Hc : In c (elems ch)).
  { apply (below_iff_ancestor w p t cl ch c Hw Ep). rewrite Ea. simpl.
    unfold deref in Ep. destruct (ancestry w p) as [| y r]; [discriminate |].
    simpl in Ep. inversion Ep; subst. now left. }
  unfold stripper. rewrite Hs.
  destruct (ancestry_set_textContent_removed p (get_textContent w p) w t cl ch c
              Hw Ep Hc) as (E1 & E2).
  unfold parentElement. rewrite E1.
  rewrite Ea in E2. apply (f_equal (@List.length node)) in E2.
  rewrite List.length_app in E2. simpl in E2.
  destruct (chain c ch) as [| z [| z' r]]; try reflexivity.
  simpl in E2. lia.
Qed.

(** X11. When the guard [if (!pre) return] fires: a code element whose
    parent is a code element with a span below it loses that parent when
    the parent is flattened, and the callback then skips it, so the engine
    is never called on it. *)
Theorem nested_block_is_skipped :
  forall w inner outer pre,
    wf w ->
    parentElement w inner = Some outer ->
    parentElement w outer = Some pre ->
    querySelector_span w outer = true ->
    exists w1,
      callback loaded outer w = Normal w1
      /\ parentElement w1 inner = None
      /\ callback loaded inner w1 = Normal w1.
Proof.
  intros w inner outer pre Hw Hi Ho Hs.
  exists (step outer w).
  split; [now apply callback_step |].
  assert (Hnone : parentElement (step outer w) inner = None).
  { unfold step. rewrite Ho.
    change (parentElement (logged outer ?w') inner) with (parentElement w' inner).
    rewrite parentElement_resolved by auto with dom.
    now apply parentElement_stripper_child. }
  split; [exact Hnone | now apply callback_skip].
Qed.

Lemma nested_block_is_skipped_witness :
  wf (page nested_block)
  /\ parentElement (page nested_block) 4 = Some 2
  /\ querySelector_span (page nested_block) 2 = true
  /\ exists w1,
       callback loaded 2 (page nested_block) = Normal w1
       /\ callback loaded 4 w1 = Normal w1.
Proof.
  assert (Hw : wf (page nested_block)) by solve_wf.
  split; [exact Hw |]. split; [reflexivity |]. split; [reflexivity |].
  destruct (nested_block_is_skipped (page nested_block) 4 2 1 Hw
              eq_refl eq_refl eq_refl) as (w1 & E1 & _ & E2).
  now exists w1.
Defined.

(** ** Enumerating again *)

Lemma ancestry_localNames w c :
  wf w ->
  map localName_of (ancestry w c)
  = map (name_of_handle w) (map uid_of (ancestry w c)).
Proof.
  intros Hw. rewrite map_map. apply map_ext_in. intros a Ha.
  destruct (chain_elements c (forest w) a Ha) as (k & t & cl & ch & -> & _).
  apply in_split in Ha as (near & far & E).
  pose proof (ancestry_suffix w c near _ far k Hw E eq_refl) as Ek.
  simpl. unfold localName. now rewrite (ancestry_deref w k _ far Ek).
Qed.

Lemma matches_chain_names b l l' :
  map localName_of l = map localName_of l' ->
  matches_chain b l = matches_chain b l'.
Proof.
  destruct l as [| x up], l' as [| x' up']; try discriminate; [reflexivity |].
  simpl. intros E. injection E as E1 E2. rewrite E1. f_equal. f_equal.
  revert up' E2. induction up as [| a up IH]; intros [| a' up'] E2;
    try discriminate; [reflexivity |].
  simpl in *. injection E2 as Ea E2. now rewrite Ea, (IH up' E2).
Qed.

Lemma matches_pre_code_stable w w' c :
  wf w -> wf w' ->
  (forall j, localName w' j = localName w j) ->
  map uid_of (ancestry w' c) = map uid_of (ancestry w c) ->
  matches_pre_code w' c = matches_pre_code w c.
Proof.
  intros Hw Hw' Hn Eu. unfold matches_pre_code. apply matches_chain_names.
  rewrite !ancestry_localNames, Eu by assumption.
  apply map_ext. intros [k |]; simpl; [apply Hn | reflexivity].
Qed.

(** X12. Enumerating again after the pass finds exactly the code elements
    enumerated before that are still in the document: the pass makes no
    other element match the selector, and none of those stop matching. *)
Theorem enumeration_after_pass :
  forall w,
    wf w ->
    exists w',
      highlight_init loaded w = Normal w'
      /\ forall c,
           In c (querySelectorAll_pre_code w')
           <-> In c (querySelectorAll_pre_code w)
               /\ In c (elements (document w')).
Proof.
  intros w Hw.
  set (L := querySelectorAll_pre_code w).
  exists (run L w). split; [now apply highlight_init_run |].
  assert (Hw' : wf (run L w)) by auto with dom.
  destruct (loop_invariant_run w Hw L [] w eq_refl) as (_ & Hdoc & _ & Hsel).
  { split; [exact Hw |]. split; [now split |]. split; [intros ? [] | tauto]. }
  simpl in Hdoc, Hsel.
  intros c. split.
  - intros Hc. split; [now apply Hsel |].
    rewrite (querySelectorAll_filter (run L w) Hw') in Hc.
    now apply filter_In in Hc.
  - intros [Hc Hin].
    rewrite (querySelectorAll_filter (run L w) Hw').
    apply filter_In. split; [exact Hin |].
    destruct (Hdoc c Hin) as [Hin0 Eu].
    rewrite (matches_pre_code_stable w (run L w) c Hw Hw').
    + unfold L in Hc. rewrite (querySelectorAll_filter w Hw) in Hc.
      now apply filter_In in Hc.
    + intros j. now apply views_run.
    + now rewrite (ancestry_document _ c Hw' Hin), (ancestry_document w c Hw Hin0).
Qed.

Lemma enumeration_after_pass_witness :
  wf (page nested_block)
  /\ querySelectorAll_pre_code (page nested_block) = [2; 4]
  /\ exists w',
       highlight_init loaded (page nested_block) = Normal w'
       /\ querySelectorAll_pre_code w' = [2].
Proof.
  assert (Hw : wf (page nested_block)) by solve_wf.
  split; [exact Hw |]. split; [reflexivity |].
  destruct (enumeration_after_pass (page nested_block) Hw) as (w' & E & _).
  exists w'. split; [exact E |]. injection E as <-. reflexivity.
Defined.
